(** * perron: the per-request execution engine of [lib/request.ts]

    A shallow embedding of [request] and of the helpers it is built from
    ([getInterval], [subtract], [makeTimingPhases]), followed by the
    properties of the engine.

    [request] is event-driven: its body registers listeners on the client
    request, on the socket and on the response stream, and everything that
    happens afterwards is the reaction of those listeners to the events that
    the transport emits.  The embedding therefore has three parts:

    - the pure helpers, as functions;
    - the synchronous part of [request] (option defaults, path resolution,
      listener registration, body write), as the function [request] that
      returns the initial [State] of the execution;
    - the listeners, as the function [step] that maps a [State] and one
      emitted [Event] to the next [State]; [run] folds [step] over a trace.

    Numbers are JavaScript numbers that only ever hold integers here
    (millisecond durations, status codes, byte counts); they are modelled
    by [Z] and [nat].  The one computation that leaves the integers, line
    16, is stated a second time in the arithmetic of doubles
    ([getInterval_number]) and shown to agree with its integer form for
    elapsed times below [2 ^ 33] ms. *)

From Stdlib Require Import ZArith String Ascii List Bool Lia.
From Stdlib Require Import Strings.Byte.
From Stdlib Require Import QArith Qround Qabs Lqa.
From stdpp Require Import base option list gmap strings pretty.

Local Open Scope string_scope.
Local Open Scope list_scope.
Local Open Scope Z_scope.

(** ** Values exchanged with the platform *)

(** A [Buffer] is a sequence of bytes. *)
Definition Buffer := list byte.

(** The text that [Buffer.toString("utf8")] produces, as a sequence of
    Unicode code points. *)
Definition Text := list N.

(** [IncomingHttpHeaders], a JavaScript object used as a map from header
    name to header value. *)
Abbreviation Headers := (gmap string string).

(** Primitive values that can occur in a [query] object. *)
Inductive QueryValue :=
| QStr (s : string)
| QNum (n : Z)
| QBool (b : bool).

(** A [query] object: its own enumerable properties, in insertion order. *)
Definition Query := list (string * QueryValue).

(** The functions of the Node.js platform that [request] calls and whose
    code is not part of the repository. *)
Class NodeApi := {
  (** [querystring.stringify] *)
  querystring_stringify : Query → string;
  (** The decoder behind [zlib.createUnzip()], as a function of the whole
      compressed payload: [inr] of the plaintext, or [inl] of the message
      of the error that the decoder raises on malformed input. *)
  zlib_unzip : Buffer → string + Buffer;
  (** [buffer.toString("utf8")] *)
  Buffer_toString_utf8 : Buffer → Text
}.

(** ** Timings and timing phases *)

Module Timings.
Record t := mk {
  lookup : option Z;
  socket : option Z;
  connect : option Z;
  response : option Z;
  end_ : option Z
}.

(** The object literal of [request], lines 117-123. *)
Definition fresh : t := mk None None None None None.

Definition set_lookup (v : option Z) (x : t) : t :=
  mk v (socket x) (connect x) (response x) (end_ x).
Definition set_socket (v : option Z) (x : t) : t :=
  mk (lookup x) v (connect x) (response x) (end_ x).
Definition set_connect (v : option Z) (x : t) : t :=
  mk (lookup x) (socket x) v (response x) (end_ x).
Definition set_response (v : option Z) (x : t) : t :=
  mk (lookup x) (socket x) (connect x) v (end_ x).
Definition set_end (v : option Z) (x : t) : t :=
  mk (lookup x) (socket x) (connect x) (response x) v.
End Timings.

Module TimingPhases.
Record t := mk {
  wait : option Z;
  dns : option Z;
  tcp : option Z;
  firstByte : option Z;
  download : option Z;
  total : option Z
}.
End TimingPhases.

(** [process.hrtime(time)]: the pair (seconds, nanoseconds) elapsed since
    [time]. *)
Definition hrtime := (Z * Z)%type.

(** [getInterval]: [Math.round(diff[0] * 1000 + diff[1] / 1000000)] on the
    elapsed pair [diff]; [Math.round x] is [floor (x + 1/2)]. *)
Definition getInterval (diff : hrtime) : Z :=
  fst diff * 1000 + (snd diff + 500000) / 1000000.

(** *** Line 16 in the arithmetic of Numbers

    [getInterval] above computes on integers.  The platform computes
    [diff[0] * 1000 + diff[1] / 1000000] on Numbers, which are binary64
    floating-point values: every operation returns its exact result
    rounded to a double.  The following definitions state line 16 in that
    arithmetic, for a rounding [fl] of which only the two standard facts
    are assumed. *)

(** The finite doubles: [m * 2 ^ e] with a 53-bit [m]. *)
Definition binary64 (x : Q) : Prop :=
  ∃ m e : Z, Z.abs m < 2 ^ 53 ∧ -1074 ≤ e ≤ 971 ∧
    (x == inject_Z m * Qpower 2 e)%Q.

(** [Math.round]: the nearest integer, a half going up. *)
Definition Math_round (x : Q) : Z := Qfloor (x + (1 # 2))%Q.

(** [Math.round(diff[0] * 1000 + diff[1] / 1000000)], the product, the
    quotient and the sum being rounded by [fl]. *)
Definition getInterval_number (fl : Q → Q) (diff : hrtime) : Z :=
  Math_round
    (fl (fl (inject_Z (fst diff) * 1000) + fl (inject_Z (snd diff) / 1000000)))%Q.

(** What rounding to the nearest double guarantees: a double is left as it
    is, and in the range of the normal doubles the relative error is at most
    [2 ^ -53]. *)
Definition rounds_to_nearest (fl : Q → Q) : Prop :=
  (∀ x, binary64 x → (fl x == x)%Q) ∧
  (∀ x, (Qpower 2 (-1022) <= Qabs x)%Q → (Qabs x <= Qpower 2 1023)%Q →
        (Qabs (fl x - x) <= Qabs x / Qpower 2 53)%Q).

(** [subtract]: the difference when both arguments are numbers, [undefined]
    otherwise. *)
Definition subtract (a b : option Z) : option Z :=
  match a, b with
  | Some x, Some y => Some (x - y)
  | _, _ => None
  end.

Definition makeTimingPhases (timings : Timings.t) : TimingPhases.t :=
  {| TimingPhases.wait := Timings.socket timings;
     TimingPhases.dns := subtract (Timings.lookup timings) (Timings.socket timings);
     TimingPhases.tcp := subtract (Timings.connect timings) (Timings.lookup timings);
     TimingPhases.firstByte := subtract (Timings.response timings) (Timings.connect timings);
     TimingPhases.download := subtract (Timings.end_ timings) (Timings.response timings);
     TimingPhases.total := Timings.end_ timings |}.

(** ** Request options *)

(** [ServiceClientRequestOptions].  An optional property is [None] when the
    key is absent from the object; [timing] is the truthiness of the
    property. *)
Record ServiceClientRequestOptions := mkOptions {
  protocol : option string;
  host : option string;
  path : option string;
  pathname : option string;
  query : option Query;
  timing : bool;
  body : option string;
  timeout : option Z;
  readTimeout : option Z
}.

Definition DEFAULT_READ_TIMEOUT : Z := 2000.
Definition DEFAULT_CONNECTION_TIMEOUT : Z := 1000.

(** [x || d] on an optional number: [0] and [undefined] are falsy. *)
Definition number_or (x : option Z) (d : Z) : Z :=
  match x with
  | Some n => if n =? 0 then d else n
  | None => d
  end.

(** The conversion of a value to a string inside a template literal. *)
Definition template_number (n : Z) : string := pretty n.
Definition template_string (s : option string) : string :=
  match s with
  | Some x => x
  | None => "undefined"
  end.

(** ** Published values *)

(** Address of an object in the store of [Timings] objects. *)
Definition loc := nat.

(** What the promise rejects with: the [Error] it was given when timing is
    off, an [ErrorWithTimings] otherwise.  The [timings] property of an
    [ErrorWithTimings] is a reference to the [Timings] object it was built
    with; its [timingPhases] property is the object that [makeTimingPhases]
    allocated for it. *)
Inductive Fault :=
| Error (message : string)
| ErrorWithTimings (message : string) (timings : loc)
    (timingPhases : TimingPhases.t).

Definition message (e : Fault) : string :=
  match e with
  | Error m => m
  | ErrorWithTimings m _ _ => m
  end.

Module ServiceClientResponse.
Record t := mk {
  statusCode : Z;
  headers : option Headers;
  body : Text;
  request : ServiceClientRequestOptions;
  (** [undefined] unless timing is on; then a reference to the [Timings]
      object of the execution *)
  timings : option loc;
  timingPhases : option TimingPhases.t
}.
End ServiceClientResponse.

Inductive PromiseState :=
| Pending
| Fulfilled (value : ServiceClientResponse.t)
| Rejected (reason : Fault).

(** ** The state of one execution *)

(** The closure of one ["response"] listener call (lines 185-238) together
    with the streams it set up. *)
Record ResponseCtx := mkResponseCtx {
  rc_headers : option Headers;
  rc_statusCode : option Z;
  (** [bodyStream] is [response.pipe(zlib.createUnzip())] rather than
      [response] itself *)
  rc_piped : bool;
  (** bytes that [response] has written into the unzip stream *)
  rc_unzip_input : Buffer;
  (** the unzip stream has not been ended yet *)
  rc_unzip_open : bool;
  rc_chunks : list Buffer;
  rc_bufferLength : nat
}.

(** What [request] did to the transport synchronously. *)
Record ClientRequest := mkClientRequest {
  (** [httpsRequest] rather than [httpRequest] *)
  cr_https : bool;
  (** the argument of [httpRequestFn] *)
  cr_options : ServiceClientRequestOptions;
  (** arguments of the [requestObject.write] calls *)
  cr_written : list string;
  (** [requestObject.end()] was called *)
  cr_ended : bool
}.

(** The mutable state that the listeners share.  A one-time listener is
    represented by a flag that is set when the listener is registered and
    cleared when it is called; each of them is registered at most once,
    because the code that registers it is itself a one-time listener. *)
Record State := mkState {
  (** the heap of [Timings] objects *)
  store : gmap loc Timings.t;
  promise : PromiseState;
  (** [requestObject.once("socket", ...)] *)
  socketListener : bool;
  (** the callback of [socket.setTimeout(connectionTimeout, ...)], a
      one-time ["timeout"] listener of the socket *)
  connectionTimeoutListener : bool;
  (** [socket.once("lookup", ...)] *)
  lookupListener : bool;
  (** [socket.once("connect", ...)] *)
  connectListener : bool;
  (** the callback of [requestObject.setTimeout(readTimeout, ...)], a
      one-time ["timeout"] listener of the request *)
  readTimeoutListener : bool;
  (** duration last given to [socket.setTimeout] *)
  socketTimeout : option Z;
  (** duration last given to [requestObject.setTimeout] *)
  requestTimeout : option Z;
  (** number of [destroy()] calls on the socket *)
  destroyed : nat;
  (** one entry per ["response"] event received *)
  responses : list ResponseCtx;
  requestObject : ClientRequest
}.

Definition set_store (v : gmap loc Timings.t) (st : State) : State :=
  mkState v (promise st) (socketListener st) (connectionTimeoutListener st)
    (lookupListener st) (connectListener st) (readTimeoutListener st)
    (socketTimeout st) (requestTimeout st) (destroyed st) (responses st)
    (requestObject st).
Definition set_promise (v : PromiseState) (st : State) : State :=
  mkState (store st) v (socketListener st) (connectionTimeoutListener st)
    (lookupListener st) (connectListener st) (readTimeoutListener st)
    (socketTimeout st) (requestTimeout st) (destroyed st) (responses st)
    (requestObject st).
Definition set_socketListener (v : bool) (st : State) : State :=
  mkState (store st) (promise st) v (connectionTimeoutListener st)
    (lookupListener st) (connectListener st) (readTimeoutListener st)
    (socketTimeout st) (requestTimeout st) (destroyed st) (responses st)
    (requestObject st).
Definition set_connectionTimeoutListener (v : bool) (st : State) : State :=
  mkState (store st) (promise st) (socketListener st) v
    (lookupListener st) (connectListener st) (readTimeoutListener st)
    (socketTimeout st) (requestTimeout st) (destroyed st) (responses st)
    (requestObject st).
Definition set_lookupListener (v : bool) (st : State) : State :=
  mkState (store st) (promise st) (socketListener st)
    (connectionTimeoutListener st) v (connectListener st)
    (readTimeoutListener st) (socketTimeout st) (requestTimeout st)
    (destroyed st) (responses st) (requestObject st).
Definition set_connectListener (v : bool) (st : State) : State :=
  mkState (store st) (promise st) (socketListener st)
    (connectionTimeoutListener st) (lookupListener st) v
    (readTimeoutListener st) (socketTimeout st) (requestTimeout st)
    (destroyed st) (responses st) (requestObject st).
Definition set_readTimeoutListener (v : bool) (st : State) : State :=
  mkState (store st) (promise st) (socketListener st)
    (connectionTimeoutListener st) (lookupListener st) (connectListener st)
    v (socketTimeout st) (requestTimeout st) (destroyed st) (responses st)
    (requestObject st).
Definition set_socketTimeout (v : option Z) (st : State) : State :=
  mkState (store st) (promise st) (socketListener st)
    (connectionTimeoutListener st) (lookupListener st) (connectListener st)
    (readTimeoutListener st) v (requestTimeout st) (destroyed st)
    (responses st) (requestObject st).
Definition set_requestTimeout (v : option Z) (st : State) : State :=
  mkState (store st) (promise st) (socketListener st)
    (connectionTimeoutListener st) (lookupListener st) (connectListener st)
    (readTimeoutListener st) (socketTimeout st) v (destroyed st)
    (responses st) (requestObject st).
Definition set_destroyed (v : nat) (st : State) : State :=
  mkState (store st) (promise st) (socketListener st)
    (connectionTimeoutListener st) (lookupListener st) (connectListener st)
    (readTimeoutListener st) (socketTimeout st) (requestTimeout st) v
    (responses st) (requestObject st).
Definition set_responses (v : list ResponseCtx) (st : State) : State :=
  mkState (store st) (promise st) (socketListener st)
    (connectionTimeoutListener st) (lookupListener st) (connectListener st)
    (readTimeoutListener st) (socketTimeout st) (requestTimeout st)
    (destroyed st) v (requestObject st).

(** What the transport can emit while the request is in flight.  The
    emitters are the client request, the socket it is given, and the
    [IncomingMessage] of each response; an event reaches the listeners that
    [request] registered for it on that emitter, and nothing else. *)
Inductive Event :=
(** [requestObject] emits ["socket"]; [connecting] is [socket.connecting],
    [now] is what [process.hrtime(startTime)] returns at that moment *)
| EvSocket (connecting : bool) (now : hrtime)
(** the socket emits ["lookup"] *)
| EvLookup (now : hrtime)
(** the socket emits ["connect"] *)
| EvConnect (now : hrtime)
(** the socket emits ["timeout"] *)
| EvSocketTimeout
(** [requestObject] emits ["timeout"] *)
| EvRequestTimeout
(** [requestObject] emits ["error"] with an [Error] of that message *)
| EvRequestError (msg : string)
(** [requestObject] emits ["response"] with a new [IncomingMessage] *)
| EvResponse (headers : option Headers) (statusCode : option Z) (now : hrtime)
(** the [IncomingMessage] of the [i]-th ["response"] event emits ["data"] *)
| EvData (i : nat) (chunk : Buffer)
(** ... emits ["end"] *)
| EvEnd (i : nat) (now : hrtime)
(** ... emits ["error"] *)
| EvResponseError (i : nat) (msg : string).

(** [Buffer.concat(list, totalLength)]: the concatenation, truncated or
    zero-filled to [totalLength] bytes. *)
Definition Buffer_concat (chunks : list Buffer) (totalLength : nat) : Buffer :=
  take totalLength (concat chunks ++ replicate totalLength x00)%list.

Section Request.
Context `{NodeApi}.

(** Lines 86-99: the [protocol] default and the resolution of [path]. *)
Definition resolve_options (options : ServiceClientRequestOptions)
  : ServiceClientRequestOptions :=
  let protocol' :=
    match protocol options with
    | Some p => Some p
    | None => Some "https:"
    end in
  let path' :=
    match pathname options, path options with
    | Some pn, None =>
        match query options with
        | Some q => Some (pn +:+ "?" +:+ querystring_stringify q)
        | None => Some pn
        end
    | _, p => p
    end in
  mkOptions protocol' (host options) path' (pathname options) (query options)
    (timing options) (body options) (timeout options) (readTimeout options).

Definition connectionTimeout (options : ServiceClientRequestOptions) : Z :=
  number_or (timeout options) DEFAULT_CONNECTION_TIMEOUT.

Definition readTimeout_ms (options : ServiceClientRequestOptions) : Z :=
  number_or (readTimeout options) DEFAULT_READ_TIMEOUT.

(** *** The listeners

    [options] is the variable of that name after line 99, the value that
    every listener closes over. *)
Section Listeners.
Variable options : ServiceClientRequestOptions.

(** The one [Timings] object of the execution, allocated by line 117. *)
Definition timings_loc : loc := 0%nat.

(** An assignment to a property of [timings]. *)
Definition write_timings (f : Timings.t → Timings.t) (st : State) : State :=
  set_store (alter f timings_loc (store st)) st.

(** The two settling functions of the promise: they act on a pending
    promise and do nothing otherwise. *)
Definition resolve (value : ServiceClientResponse.t) (st : State) : State :=
  match promise st with
  | Pending => set_promise (Fulfilled value) st
  | _ => st
  end.

Definition originalReject (reason : Fault) (st : State) : State :=
  match promise st with
  | Pending => set_promise (Rejected reason) st
  | _ => st
  end.

(** [reject], lines 114 and 124-131, applied to an [Error] with message
    [msg].  The store holds [timings] whenever timing is on, so that the
    [None] branch is never taken. *)
Definition reject (msg : string) (st : State) : State :=
  if timing options then
    match store st !! timings_loc with
    | Some timings =>
        originalReject
          (ErrorWithTimings msg timings_loc (makeTimingPhases timings)) st
    | None => st
    end
  else originalReject (Error msg) st.

(** The callback of [requestObject.setTimeout], lines 137-144. *)
Definition on_read_timeout (st : State) : State :=
  reject
    ("Failed to read data within " +:+ template_number (readTimeout_ms options)
       +:+ " ms from " +:+ template_string (host options))
    (set_destroyed (S (destroyed st)) st).

Definition setReadTimeout (st : State) : State :=
  set_readTimeoutListener true
    (set_requestTimeout (Some (readTimeout_ms options)) st).

(** The callback of [socket.setTimeout], lines 152-162. *)
Definition on_connection_timeout (st : State) : State :=
  reject
    ("Could not connect within " +:+ template_number (connectionTimeout options)
       +:+ " ms to " +:+ template_string (host options))
    (set_destroyed (S (destroyed st)) st).

(** The ["lookup"] listener, lines 164-166; registered only when timing is
    on. *)
Definition on_lookup (now : hrtime) (st : State) : State :=
  write_timings (Timings.set_lookup (Some (getInterval now))) st.

(** The ["connect"] listener, lines 170-175. *)
Definition on_connect (now : hrtime) (st : State) : State :=
  let st1 :=
    if timing options
    then write_timings (Timings.set_connect (Some (getInterval now))) st
    else st in
  setReadTimeout st1.

(** The ["socket"] listener, lines 147-183. *)
Definition on_socket (connecting : bool) (now : hrtime) (st : State) : State :=
  let st1 :=
    if timing options
    then write_timings (Timings.set_socket (Some (getInterval now))) st
    else st in
  if connecting then
    let st2 :=
      set_connectionTimeoutListener true
        (set_socketTimeout (Some (connectionTimeout options)) st1) in
    let st3 := if timing options then set_lookupListener true st2 else st2 in
    set_connectListener true st3
  else
    let st2 :=
      if timing options then
        write_timings (λ t, Timings.set_connect (Timings.socket t) t)
          (write_timings (λ t, Timings.set_lookup (Timings.socket t) t) st1)
      else st1 in
    setReadTimeout st2.

(** [headers && headers["content-encoding"]] *)
Definition content_encoding (headers : option Headers) : option string :=
  headers ≫= λ h, h !! "content-encoding".

(** The test of line 200. *)
Definition is_compressed (encoding : option string) : bool :=
  bool_decide (encoding = Some "gzip") || bool_decide (encoding = Some "deflate").

(** The closure that the ["response"] listener creates, lines 196-208:
    [bodyStream] is chosen by the encoding, [chunks] is empty and
    [bufferLength] is [0]. *)
Definition new_response (headers : option Headers) (statusCode : option Z)
  : ResponseCtx :=
  mkResponseCtx headers statusCode (is_compressed (content_encoding headers))
    [] true [] 0%nat.

(** The ["response"] listener up to line 210: the timing checkpoints and the
    new closure. *)
Definition on_response (headers : option Headers) (statusCode : option Z)
    (now : hrtime) (st : State) : State :=
  let st1 :=
    if timing options then
      write_timings (Timings.set_response (Some (getInterval now)))
        (write_timings
           (λ t, match Timings.connect t with
                 | None => Timings.set_connect (Timings.socket t) t
                 | Some _ => t
                 end)
           (write_timings
              (λ t, match Timings.lookup t with
                    | None => Timings.set_lookup (Timings.socket t) t
                    | Some _ => t
                    end)
              st))
    else st in
  set_responses (responses st1 ++ [new_response headers statusCode])%list st1.

(** The ["data"] listener of [bodyStream], lines 212-215. *)
Definition on_data (i : nat) (data : Buffer) (st : State) : State :=
  match responses st !! i with
  | Some rc =>
      let rc' :=
        mkResponseCtx (rc_headers rc) (rc_statusCode rc) (rc_piped rc)
          (rc_unzip_input rc) (rc_unzip_open rc)
          (rc_chunks rc ++ [data])%list
          (rc_bufferLength rc + length data)%nat in
      set_responses (<[i := rc']> (responses st)) st
  | None => st
  end.

(** The ["end"] listener of [bodyStream], lines 217-237. *)
Definition on_end (i : nat) (now : hrtime) (st : State) : State :=
  match responses st !! i with
  | Some rc =>
      let body :=
        Buffer_toString_utf8 (Buffer_concat (rc_chunks rc) (rc_bufferLength rc)) in
      let rc' :=
        mkResponseCtx (rc_headers rc) (rc_statusCode rc) (rc_piped rc)
          (rc_unzip_input rc) (rc_unzip_open rc) [] 0%nat in
      let st1 := set_responses (<[i := rc']> (responses st)) st in
      let serviceClientResponse :=
        ServiceClientResponse.mk (number_or (rc_statusCode rc) 0)
          (rc_headers rc) body options in
      if timing options then
        let st2 := write_timings (Timings.set_end (Some (getInterval now))) st1 in
        match store st2 !! timings_loc with
        | Some timings =>
            resolve
              (serviceClientResponse (Some timings_loc)
                 (Some (makeTimingPhases timings))) st2
        | None => st2
        end
      else resolve (serviceClientResponse None None) st1
  | None => st
  end.

(** [response.pipe(zlib.createUnzip())]: what [response] emits is written
    into the unzip stream, and ending [response] ends the unzip stream,
    which then emits either the plaintext followed by ["end"], or
    ["error"].  The decoder is consulted when the response ends: an error
    that the stream of the platform raises as soon as it has read a
    malformed chunk is raised here at the end of the response, with the
    same message. *)
Definition unzip_write (i : nat) (chunk : Buffer) (st : State) : State :=
  match responses st !! i with
  | Some rc =>
      if rc_unzip_open rc then
        let rc' :=
          mkResponseCtx (rc_headers rc) (rc_statusCode rc) (rc_piped rc)
            (rc_unzip_input rc ++ chunk)%list true
            (rc_chunks rc) (rc_bufferLength rc) in
        set_responses (<[i := rc']> (responses st)) st
      else st
  | None => st
  end.

Definition unzip_end (i : nat) (now : hrtime) (st : State) : State :=
  match responses st !! i with
  | Some rc =>
      if rc_unzip_open rc then
        let rc' :=
          mkResponseCtx (rc_headers rc) (rc_statusCode rc) (rc_piped rc)
            (rc_unzip_input rc) false
            (rc_chunks rc) (rc_bufferLength rc) in
        let st1 := set_responses (<[i := rc']> (responses st)) st in
        match zlib_unzip (rc_unzip_input rc) with
        | inr plain => on_end i now (on_data i plain st1)
        | inl msg => reject msg st1
        end
      else st
  | None => st
  end.

(** The reaction of the registered listeners to one event.  A one-time
    listener is removed before it is called. *)
Definition step (st : State) (ev : Event) : State :=
  match ev with
  | EvSocket connecting now =>
      if socketListener st
      then on_socket connecting now (set_socketListener false st)
      else st
  | EvLookup now =>
      if lookupListener st
      then on_lookup now (set_lookupListener false st)
      else st
  | EvConnect now =>
      if connectListener st
      then on_connect now (set_connectListener false st)
      else st
  | EvSocketTimeout =>
      if connectionTimeoutListener st
      then on_connection_timeout (set_connectionTimeoutListener false st)
      else st
  | EvRequestTimeout =>
      if readTimeoutListener st
      then on_read_timeout (set_readTimeoutListener false st)
      else st
  | EvRequestError msg => reject msg st
  | EvResponse headers statusCode now => on_response headers statusCode now st
  | EvData i chunk =>
      match responses st !! i with
      | Some rc => if rc_piped rc then unzip_write i chunk st else on_data i chunk st
      | None => st
      end
  | EvEnd i now =>
      match responses st !! i with
      | Some rc => if rc_piped rc then unzip_end i now st else on_end i now st
      | None => st
      end
  | EvResponseError i msg =>
      match responses st !! i with
      | Some _ => reject msg st
      | None => st
      end
  end.

(** The state after a sequence of events. *)
Definition steps (st : State) (trace : list Event) : State :=
  foldl step st trace.

End Listeners.

(** [options.body] is truthy. *)
Definition body_to_write (options : ServiceClientRequestOptions) : list string :=
  match body options with
  | Some b => if decide (b = "") then [] else [b]
  | None => []
  end.

(** The synchronous part of [request]: the state in which the promise is
    returned. *)
Definition request (options0 : ServiceClientRequestOptions) : State :=
  let options := resolve_options options0 in
  {| store := if timing options then {[ timings_loc := Timings.fresh ]} else ∅;
     promise := Pending;
     socketListener := true;
     connectionTimeoutListener := false;
     lookupListener := false;
     connectListener := false;
     readTimeoutListener := false;
     socketTimeout := None;
     requestTimeout := None;
     destroyed := 0%nat;
     responses := [];
     requestObject :=
       {| cr_https := bool_decide (protocol options = Some "https:");
          cr_options := options;
          cr_written := body_to_write options;
          cr_ended := true |} |}.

(** One execution: [request] followed by the events of [trace]. *)
Definition run (options0 : ServiceClientRequestOptions) (trace : list Event)
  : State :=
  steps (resolve_options options0) (request options0) trace.

End Request.

(** The promise that [request] returns.  The executor (lines 111-245) runs
    inside [new Promise]: when a call to the transport in it throws, as
    [httpRequestFn] does on options that it refuses, the promise is rejected
    with what was thrown, as it is and without passing through [reject];
    [thrown] is the message of that error, if there is one.  Otherwise the
    promise is the one that the listeners settle. *)
Definition returned_promise `{NodeApi} (thrown : option string)
    (options : ServiceClientRequestOptions) (trace : list Event) : PromiseState :=
  match thrown with
  | Some msg => Rejected (Error msg)
  | None => promise (run options trace)
  end.

(** ** A reference model of the platform functions

    Used to run the engine on concrete inputs. *)

(** [querystring.escape]: every byte of the UTF-8 form of the string that is
    not one of [A-Za-z0-9-_.!~*'()] becomes [%XX]. *)
Definition qs_unreserved (c : ascii) : bool :=
  let n := N_of_ascii c in
  ((65 <=? n) && (n <=? 90) || (97 <=? n) && (n <=? 122)
   || (48 <=? n) && (n <=? 57)
   || bool_decide (n ∈ [45; 95; 46; 33; 126; 42; 39; 40; 41]))%N.

Definition hex_digit (n : N) : ascii :=
  ascii_of_N (if (n <? 10)%N then 48 + n else 55 + n)%N.

Fixpoint qs_escape (s : string) : string :=
  match s with
  | EmptyString => EmptyString
  | String c rest =>
      if qs_unreserved c then String c (qs_escape rest)
      else
        let n := N_of_ascii c in
        String "%" (String (hex_digit (n / 16)) (String (hex_digit (n mod 16))
          (qs_escape rest)))
  end.

Definition qs_primitive (v : QueryValue) : string :=
  match v with
  | QStr s => s
  | QNum n => pretty n
  | QBool true => "true"
  | QBool false => "false"
  end.

Fixpoint qs_join (fields : list string) : string :=
  match fields with
  | [] => ""
  | [f] => f
  | f :: rest => f +:+ "&" +:+ qs_join rest
  end.

Definition qs_stringify (q : Query) : string :=
  qs_join (map (λ kv, qs_escape (fst kv) +:+ "=" +:+ qs_escape (qs_primitive (snd kv))) q).

(** UTF-8 decoding with U+FFFD for every maximal ill-formed subsequence. *)
Definition in_range (b lo hi : N) : bool := ((lo <=? b) && (b <=? hi))%N.

Fixpoint utf8_decode (bs : list N) : Text :=
  match bs with
  | [] => []
  | b0 :: r0 =>
      if (b0 <=? 0x7f)%N then b0 :: utf8_decode r0
      else if in_range b0 0xc2 0xdf then
        match r0 with
        | b1 :: r1 =>
            if in_range b1 0x80 0xbf
            then ((b0 - 0xc0) * 64 + (b1 - 0x80))%N :: utf8_decode r1
            else 0xfffd%N :: utf8_decode r0
        | [] => [0xfffd%N]
        end
      else if in_range b0 0xe0 0xef then
        let lo := if (b0 =? 0xe0)%N then 0xa0%N else 0x80%N in
        let hi := if (b0 =? 0xed)%N then 0x9f%N else 0xbf%N in
        match r0 with
        | b1 :: r1 =>
            if in_range b1 lo hi then
              match r1 with
              | b2 :: r2 =>
                  if in_range b2 0x80 0xbf
                  then ((b0 - 0xe0) * 4096 + (b1 - 0x80) * 64 + (b2 - 0x80))%N
                         :: utf8_decode r2
                  else 0xfffd%N :: utf8_decode r1
              | [] => [0xfffd%N]
              end
            else 0xfffd%N :: utf8_decode r0
        | [] => [0xfffd%N]
        end
      else if in_range b0 0xf0 0xf4 then
        let lo := if (b0 =? 0xf0)%N then 0x90%N else 0x80%N in
        let hi := if (b0 =? 0xf4)%N then 0x8f%N else 0xbf%N in
        match r0 with
        | b1 :: r1 =>
            if in_range b1 lo hi then
              match r1 with
              | b2 :: r2 =>
                  if in_range b2 0x80 0xbf then
                    match r2 with
                    | b3 :: r3 =>
                        if in_range b3 0x80 0xbf
                        then ((b0 - 0xf0) * 262144 + (b1 - 0x80) * 4096
                              + (b2 - 0x80) * 64 + (b3 - 0x80))%N
                               :: utf8_decode r3
                        else 0xfffd%N :: utf8_decode r2
                    | [] => [0xfffd%N]
                    end
                  else 0xfffd%N :: utf8_decode r1
              | [] => [0xfffd%N]
              end
            else 0xfffd%N :: utf8_decode r0
        | [] => [0xfffd%N]
        end
      else 0xfffd%N :: utf8_decode r0
  end.

Definition toString_utf8 (b : Buffer) : Text :=
  utf8_decode (map Byte.to_N b).

(** UTF-8 encoding of a sequence of code points, for [Buffer.from(string,
    "utf-8")]. *)
Definition byte_of (n : N) : byte := default x00 (Byte.of_N n).

Definition utf8_encode_code_point (cp : N) : Buffer :=
  (if cp <? 0x80 then [byte_of cp]
   else if cp <? 0x800 then
     [byte_of (0xc0 + cp / 64); byte_of (0x80 + cp mod 64)]
   else if cp <? 0x10000 then
     [byte_of (0xe0 + cp / 4096); byte_of (0x80 + (cp / 64) mod 64);
      byte_of (0x80 + cp mod 64)]
   else
     [byte_of (0xf0 + cp / 262144); byte_of (0x80 + (cp / 4096) mod 64);
      byte_of (0x80 + (cp / 64) mod 64); byte_of (0x80 + cp mod 64)])%N.

Definition utf8_encode (s : Text) : Buffer :=
  concat (map utf8_encode_code_point s).

(** A stand-in for the unzip decoder: a payload is the two bytes [1f 8b]
    followed by the plaintext; anything else is malformed. *)
Definition framed_unzip (payload : Buffer) : string + Buffer :=
  match payload with
  | x1f :: x8b :: plain => inr plain
  | _ => inl "incorrect header check"
  end.

Definition reference_api : NodeApi :=
  {| querystring_stringify := qs_stringify;
     zlib_unzip := framed_unzip;
     Buffer_toString_utf8 := toString_utf8 |}.

(** The reading of the clock [n] milliseconds after [startTime]. *)
Definition ms (n : Z) : hrtime := (0, n * 1000000).

(** ** The revision of the path resolution that precedes [lib/request.ts]

    It differs in one point: the [?] is left out when the stringified query
    is empty. *)
Module Prior.
Section Prior.
Context `{NodeApi}.

Definition resolve_path (options : ServiceClientRequestOptions) : option string :=
  match pathname options, path options with
  | Some pn, None =>
      match query options with
      | Some q =>
          let query := querystring_stringify q in
          let query := if decide (query = "") then query else "?" +:+ query in
          Some (pn +:+ query)
      | None => Some pn
      end
  | _, p => p
  end.

End Prior.
End Prior.

(** [options] with its [protocol] and [path] replaced. *)
Definition with_protocol_and_path (protocol' path' : option string)
    (options : ServiceClientRequestOptions) : ServiceClientRequestOptions :=
  mkOptions protocol' (host options) path' (pathname options) (query options)
    (timing options) (body options) (timeout options) (readTimeout options).

(** ** The revision of [request] that precedes [lib/request.ts]

    The earlier revision has no connection and read timeouts.  It rejects
    on the ["timeout"] event of the request, and it can drop the request
    after [dropRequestAfter] milliseconds unless the response has ended by
    then.  It takes the ["response"] listener as the callback of the
    transport call, which registers it for one event; it removes the
    ["lookup"] and ["connect"] listeners when the request fails; and it
    accepts chunks that are strings. *)
Module PriorRequest.

(** The options of that revision: the properties it shares with the later
    one (of which it reads neither [host], [timeout] nor [readTimeout]) and
    [dropRequestAfter]. *)
Record Options := mkOptions {
  base : ServiceClientRequestOptions;
  dropRequestAfter : option Z
}.

Module Response.
Record t := mk {
  statusCode : Z;
  headers : option Headers;
  body : Text;
  request : Options;
  timings : option loc;
  timingPhases : option TimingPhases.t
}.
End Response.

Inductive Promise :=
| Pending
| Fulfilled (value : Response.t)
| Rejected (reason : Fault).

(** What a stream hands to a ["data"] listener. *)
Inductive Chunk :=
| BufferChunk (b : Buffer)
| StringChunk (s : Text).

(** The closure of the response callback, lines 126-170, with the unzip
    stream when there is one. *)
Record Closure := mkClosure {
  c_headers : option Headers;
  c_statusCode : option Z;
  c_piped : bool;
  c_unzip_input : Buffer;
  c_unzip_open : bool;
  c_chunks : list Buffer
}.

Record State := mkState {
  store : gmap loc Timings.t;
  promise : Promise;
  hasRequestEnded : bool;
  (** the callback given to [httpRequestFn], a one-time ["response"]
      listener *)
  responseListener : bool;
  (** [requestObject.once("socket", ...)], registered when timing is on *)
  socketListener : bool;
  (** [socket.once("lookup", onLookUp)] *)
  lookupListener : bool;
  (** [socket.once("connect", onConnect)] *)
  connectListener : bool;
  (** [requestObject.once("error", ...)], the listener that removes the
      two above *)
  cleanupListener : bool;
  (** the timer of [setTimeout(..., options.dropRequestAfter)] is pending *)
  dropTimer : bool;
  (** number of [requestObject.abort()] calls *)
  aborted : nat;
  response : option Closure;
  requestObject : ClientRequest
}.

Definition set_store (v : gmap loc Timings.t) (st : State) : State :=
  mkState v (promise st) (hasRequestEnded st) (responseListener st)
    (socketListener st) (lookupListener st) (connectListener st)
    (cleanupListener st) (dropTimer st) (aborted st) (response st)
    (requestObject st).
Definition set_promise (v : Promise) (st : State) : State :=
  mkState (store st) v (hasRequestEnded st) (responseListener st)
    (socketListener st) (lookupListener st) (connectListener st)
    (cleanupListener st) (dropTimer st) (aborted st) (response st)
    (requestObject st).
Definition set_hasRequestEnded (v : bool) (st : State) : State :=
  mkState (store st) (promise st) v (responseListener st) (socketListener st)
    (lookupListener st) (connectListener st) (cleanupListener st)
    (dropTimer st) (aborted st) (response st) (requestObject st).
Definition set_responseListener (v : bool) (st : State) : State :=
  mkState (store st) (promise st) (hasRequestEnded st) v (socketListener st)
    (lookupListener st) (connectListener st) (cleanupListener st)
    (dropTimer st) (aborted st) (response st) (requestObject st).
Definition set_socketListener (v : bool) (st : State) : State :=
  mkState (store st) (promise st) (hasRequestEnded st) (responseListener st) v
    (lookupListener st) (connectListener st) (cleanupListener st)
    (dropTimer st) (aborted st) (response st) (requestObject st).
Definition set_lookupListener (v : bool) (st : State) : State :=
  mkState (store st) (promise st) (hasRequestEnded st) (responseListener st)
    (socketListener st) v (connectListener st) (cleanupListener st)
    (dropTimer st) (aborted st) (response st) (requestObject st).
Definition set_connectListener (v : bool) (st : State) : State :=
  mkState (store st) (promise st) (hasRequestEnded st) (responseListener st)
    (socketListener st) (lookupListener st) v (cleanupListener st)
    (dropTimer st) (aborted st) (response st) (requestObject st).
Definition set_cleanupListener (v : bool) (st : State) : State :=
  mkState (store st) (promise st) (hasRequestEnded st) (responseListener st)
    (socketListener st) (lookupListener st) (connectListener st) v
    (dropTimer st) (aborted st) (response st) (requestObject st).
Definition set_dropTimer (v : bool) (st : State) : State :=
  mkState (store st) (promise st) (hasRequestEnded st) (responseListener st)
    (socketListener st) (lookupListener st) (connectListener st)
    (cleanupListener st) v (aborted st) (response st) (requestObject st).
Definition set_aborted (v : nat) (st : State) : State :=
  mkState (store st) (promise st) (hasRequestEnded st) (responseListener st)
    (socketListener st) (lookupListener st) (connectListener st)
    (cleanupListener st) (dropTimer st) v (response st) (requestObject st).
Definition set_response (v : option Closure) (st : State) : State :=
  mkState (store st) (promise st) (hasRequestEnded st) (responseListener st)
    (socketListener st) (lookupListener st) (connectListener st)
    (cleanupListener st) (dropTimer st) (aborted st) v (requestObject st).

Inductive Event :=
(** [requestObject] emits ["socket"] *)
| EvSocket (connecting : bool) (now : hrtime)
(** the socket emits ["lookup"] *)
| EvLookup (now : hrtime)
(** the socket emits ["connect"] *)
| EvConnect (now : hrtime)
(** [requestObject] emits ["error"] *)
| EvError (msg : string)
(** [requestObject] emits ["timeout"] *)
| EvTimeout
(** the timer of [setTimeout] expires *)
| EvDropTimer
(** [requestObject] emits ["response"] *)
| EvResponse (headers : option Headers) (statusCode : option Z) (now : hrtime)
(** the response emits ["data"] *)
| EvData (chunk : Chunk)
(** the response emits ["end"] *)
| EvEnd (now : hrtime)
(** the response emits ["error"] *)
| EvResponseError (msg : string).

Section Prior.
Context `{NodeApi}.
(** [Buffer.from(chunk, "utf-8")] on a string. *)
Variable Buffer_from_utf8 : Text → Buffer.

(** Lines 82-97. *)
Definition resolve_options (options : Options) : Options :=
  mkOptions
    (with_protocol_and_path
       (match protocol (base options) with
        | Some p => Some p
        | None => Some "https:"
        end)
       (Prior.resolve_path (base options))
       (base options))
    (dropRequestAfter options).

(** Lines 148-152. *)
Definition to_buffer (chunk : Chunk) : Buffer :=
  match chunk with
  | BufferChunk b => b
  | StringChunk s => Buffer_from_utf8 s
  end.

Section Listeners.
Variable options : Options.

Definition write_timings (f : Timings.t → Timings.t) (st : State) : State :=
  set_store (alter f timings_loc (store st)) st.

Definition resolve (value : Response.t) (st : State) : State :=
  match promise st with
  | Pending => set_promise (Fulfilled value) st
  | _ => st
  end.

Definition originalReject (reason : Fault) (st : State) : State :=
  match promise st with
  | Pending => set_promise (Rejected reason) st
  | _ => st
  end.

(** [reject], lines 105 and 115-122. *)
Definition reject (msg : string) (st : State) : State :=
  if timing (base options) then
    match store st !! timings_loc with
    | Some timings =>
        originalReject
          (ErrorWithTimings msg timings_loc (makeTimingPhases timings)) st
    | None => st
    end
  else originalReject (Error msg) st.

(** The response callback up to line 146. *)
Definition on_response (headers : option Headers) (statusCode : option Z)
    (now : hrtime) (st : State) : State :=
  let st1 :=
    if timing (base options) then
      write_timings (Timings.set_response (Some (getInterval now)))
        (write_timings
           (λ t, match Timings.connect t with
                 | None => Timings.set_connect (Timings.socket t) t
                 | Some _ => t
                 end)
           (write_timings
              (λ t, match Timings.lookup t with
                    | None => Timings.set_lookup (Timings.socket t) t
                    | Some _ => t
                    end)
              st))
    else st in
  set_response
    (Some (mkClosure headers statusCode
             (is_compressed (content_encoding headers)) [] true []))
    st1.

(** The ["data"] listener of [bodyStream], lines 147-153. *)
Definition on_data (chunk : Chunk) (st : State) : State :=
  match response st with
  | Some c =>
      set_response
        (Some (mkClosure (c_headers c) (c_statusCode c) (c_piped c)
                 (c_unzip_input c) (c_unzip_open c)
                 (c_chunks c ++ [to_buffer chunk])))
        st
  | None => st
  end.

(** The ["end"] listener of [bodyStream], lines 154-169. *)
Definition on_end (now : hrtime) (st : State) : State :=
  match response st with
  | Some c =>
      let body := Buffer_toString_utf8 (concat (c_chunks c)) in
      let st1 := set_hasRequestEnded true st in
      let serviceClientResponse :=
        Response.mk (number_or (c_statusCode c) 0) (c_headers c) body options in
      if timing (base options) then
        let st2 := write_timings (Timings.set_end (Some (getInterval now))) st1 in
        match store st2 !! timings_loc with
        | Some timings =>
            resolve
              (serviceClientResponse (Some timings_loc)
                 (Some (makeTimingPhases timings))) st2
        | None => st2
        end
      else resolve (serviceClientResponse None None) st1
  | None => st
  end.

(** [response.pipe(zlib.createUnzip())], as in the later revision. *)
Definition unzip_write (chunk : Chunk) (st : State) : State :=
  match response st with
  | Some c =>
      if c_unzip_open c then
        set_response
          (Some (mkClosure (c_headers c) (c_statusCode c) (c_piped c)
                   (c_unzip_input c ++ to_buffer chunk) true (c_chunks c)))
          st
      else st
  | None => st
  end.

Definition unzip_end (now : hrtime) (st : State) : State :=
  match response st with
  | Some c =>
      if c_unzip_open c then
        let st1 :=
          set_response
            (Some (mkClosure (c_headers c) (c_statusCode c) (c_piped c)
                     (c_unzip_input c) false (c_chunks c)))
            st in
        match zlib_unzip (c_unzip_input c) with
        | inr plain => on_end now (on_data (BufferChunk plain) st1)
        | inl msg => reject msg st1
        end
      else st
  | None => st
  end.

(** The ["socket"] listener, lines 173-192. *)
Definition on_socket (connecting : bool) (now : hrtime) (st : State) : State :=
  let st1 := write_timings (Timings.set_socket (Some (getInterval now))) st in
  if connecting then
    set_cleanupListener true
      (set_connectListener true (set_lookupListener true st1))
  else
    write_timings (λ t, Timings.set_connect (Timings.socket t) t)
      (write_timings (λ t, Timings.set_lookup (Timings.socket t) t) st1).

(** The listener of lines 184-187. *)
Definition on_error_cleanup (st : State) : State :=
  set_connectListener false (set_lookupListener false st).

(** The ["timeout"] listener, lines 195-198. *)
Definition on_timeout (st : State) : State :=
  reject "socket timeout" (set_aborted (S (aborted st)) st).

(** The callback of [setTimeout], lines 200-205. *)
Definition on_drop_timer (st : State) : State :=
  if hasRequestEnded st then st
  else reject "request timeout" (set_aborted (S (aborted st)) st).

(** The reaction of the registered listeners to one event.  The listeners
    of ["error"] run in the order of their registration: [reject] first,
    then the one that removes the socket listeners. *)
Definition step (st : State) (ev : Event) : State :=
  match ev with
  | EvSocket connecting now =>
      if socketListener st
      then on_socket connecting now (set_socketListener false st)
      else st
  | EvLookup now =>
      if lookupListener st
      then write_timings (Timings.set_lookup (Some (getInterval now)))
             (set_lookupListener false st)
      else st
  | EvConnect now =>
      if connectListener st
      then write_timings (Timings.set_connect (Some (getInterval now)))
             (set_connectListener false st)
      else st
  | EvError msg =>
      let st1 := reject msg st in
      if cleanupListener st1
      then on_error_cleanup (set_cleanupListener false st1)
      else st1
  | EvTimeout => on_timeout st
  | EvDropTimer =>
      if dropTimer st then on_drop_timer (set_dropTimer false st) else st
  | EvResponse headers statusCode now =>
      if responseListener st
      then on_response headers statusCode now (set_responseListener false st)
      else st
  | EvData chunk =>
      match response st with
      | Some c => if c_piped c then unzip_write chunk st else on_data chunk st
      | None => st
      end
  | EvEnd now =>
      match response st with
      | Some c => if c_piped c then unzip_end now st else on_end now st
      | None => st
      end
  | EvResponseError msg =>
      match response st with
      | Some _ => reject msg st
      | None => st
      end
  end.

Definition steps (st : State) (trace : list Event) : State :=
  foldl step st trace.

End Listeners.

(** [options.dropRequestAfter] is truthy. *)
Definition drop_timer_armed (options : Options) : bool :=
  match dropRequestAfter options with
  | Some d => negb (d =? 0)
  | None => false
  end.

(** The synchronous part of [request]. *)
Definition request (options0 : Options) : State :=
  let options := resolve_options options0 in
  {| store :=
       if timing (base options) then {[ timings_loc := Timings.fresh ]} else ∅;
     promise := Pending;
     hasRequestEnded := false;
     responseListener := true;
     socketListener := timing (base options);
     lookupListener := false;
     connectListener := false;
     cleanupListener := false;
     dropTimer := drop_timer_armed options;
     aborted := 0%nat;
     response := None;
     requestObject :=
       {| cr_https := bool_decide (protocol (base options) = Some "https:");
          cr_options := base options;
          cr_written := body_to_write (base options);
          cr_ended := true |} |}.

Definition run (options0 : Options) (trace : list Event) : State :=
  steps (resolve_options options0) (request options0) trace.

(** The chunks that the response emitted in [trace], in order of arrival. *)
Fixpoint data_of (trace : list Event) : list Chunk :=
  match trace with
  | [] => []
  | EvData chunk :: rest => chunk :: data_of rest
  | _ :: rest => data_of rest
  end.

End Prior.

Definition is_socket_event (ev : Event) : bool :=
  match ev with
  | EvSocket _ _ => true
  | _ => false
  end.

Definition is_response_event (ev : Event) : bool :=
  match ev with
  | EvResponse _ _ _ => true
  | _ => false
  end.

Definition is_end_event (ev : Event) : bool :=
  match ev with
  | EvEnd _ => true
  | _ => false
  end.

End PriorRequest.

(** ** Vocabulary of the properties *)

(** The phase [r] is derived from the checkpoints [a] and [b]: it is their
    difference when both are defined and it is absent otherwise. *)
Definition derived_from (a b r : option Z) : Prop :=
  (∀ x y, a = Some x → b = Some y → r = Some (x - y)) ∧
  (a = None ∨ b = None → r = None).

(** The chunks that the [i]-th response emitted in [trace], in order of
    arrival. *)
Fixpoint data_of (i : nat) (trace : list Event) : list Buffer :=
  match trace with
  | [] => []
  | EvData j chunk :: rest =>
      if decide (j = i) then chunk :: data_of i rest else data_of i rest
  | _ :: rest => data_of i rest
  end.

(** [ev] is the end of the [i]-th response. *)
Definition is_end_of (i : nat) (ev : Event) : bool :=
  match ev with
  | EvEnd j _ => bool_decide (j = i)
  | _ => false
  end.

Definition is_socket_event (ev : Event) : bool :=
  match ev with
  | EvSocket _ _ => true
  | _ => false
  end.

(** The [Timings] object that a settled promise exposes. *)
Definition published_timings (p : PromiseState) : option loc :=
  match p with
  | Pending => None
  | Fulfilled r => ServiceClientResponse.timings r
  | Rejected (ErrorWithTimings _ l _) => Some l
  | Rejected (Error _) => None
  end.

(** The [TimingPhases] object that a settled promise exposes. *)
Definition published_phases (p : PromiseState) : option TimingPhases.t :=
  match p with
  | Pending => None
  | Fulfilled r => ServiceClientResponse.timingPhases r
  | Rejected (ErrorWithTimings _ _ ph) => Some ph
  | Rejected (Error _) => None
  end.

(** Once the promise has settled, an event neither settles it again nor
    changes the [Timings] object that the settled value exposes. *)
Definition later_events_are_inert `{NodeApi} (o : ServiceClientRequestOptions)
  : Prop :=
  ∀ (tr : list Event) (ev : Event),
    promise (run o tr) ≠ Pending →
    promise (run o (tr ++ [ev])) = promise (run o tr) ∧
    ∀ l, published_timings (promise (run o tr)) = Some l →
         store (run o (tr ++ [ev])) !! l = store (run o tr) !! l.

(** The socket was assigned at [v] ms and was not connecting: the three
    socket-phase checkpoints are [v], and no listener that could change
    them is registered. *)
Definition reused_at (v : Z) (st : State) : Prop :=
  socketListener st = false ∧ lookupListener st = false ∧
  connectListener st = false ∧
  ∃ t, store st !! timings_loc = Some t ∧
       Timings.socket t = Some v ∧ Timings.lookup t = Some v ∧
       Timings.connect t = Some v.

(** The phases that the promise exposes, if any, have no DNS and no TCP
    time. *)
Definition exposes_zero_dns_tcp (p : PromiseState) : Prop :=
  ∀ ph, published_phases p = Some ph →
        TimingPhases.dns ph = Some 0 ∧ TimingPhases.tcp ph = Some 0.

(** What one chunk emitted by the response does to the closure of its
    listener: it is appended to [chunks] and counted, or, behind the unzip
    stream, appended to the input of the decoder. *)
Definition feed (rc : ResponseCtx) (chunk : Buffer) : ResponseCtx :=
  if rc_piped rc then
    if rc_unzip_open rc then
      mkResponseCtx (rc_headers rc) (rc_statusCode rc) (rc_piped rc)
        (rc_unzip_input rc ++ chunk)%list true (rc_chunks rc) (rc_bufferLength rc)
    else rc
  else
    mkResponseCtx (rc_headers rc) (rc_statusCode rc) (rc_piped rc)
      (rc_unzip_input rc) (rc_unzip_open rc) (rc_chunks rc ++ [chunk])%list
      (rc_bufferLength rc + length chunk)%nat.

(** The status code of a response is absent or falsy. *)
Definition no_status (statusCode : option Z) : Prop :=
  statusCode = None ∨ statusCode = Some 0.

(** No response received so far carried a status code, and neither does the
    value of the promise. *)
Definition without_status (st : State) : Prop :=
  Forall (λ rc, no_status (rc_statusCode rc)) (responses st) ∧
  ∀ r, promise st = Fulfilled r → ServiceClientResponse.statusCode r = 0.

(** What [bodyStream] emits, up to its end, when the response emits [chunks]
    and ends: the same chunks when the response is read as it is; behind the
    unzip stream, the plaintext of the payload, and nothing that ends well
    ([None]) when the payload is malformed. *)
Definition body_stream_chunks `{NodeApi} (compressed : bool)
    (chunks : list Buffer) : option (list Buffer) :=
  if compressed then
    match zlib_unzip (concat chunks) with
    | inr plain => Some [plain]
    | inl _ => None
    end
  else Some chunks.

(** After [trace] the socket is usable for reading and the read timeout has
    not fired yet: the socket that the request was given was not connecting
    (a reused socket), or it was connecting and has emitted ["connect"]
    since. *)
Definition socket_usable_for_reading (trace : list Event) : Prop :=
  (∃ pre now post,
     trace = pre ++ EvSocket false now :: post ∧
     Forall (λ ev, is_socket_event ev = false) pre ∧
     Forall (λ ev, ev ≠ EvRequestTimeout) post) ∨
  (∃ pre now mid now' post,
     trace = pre ++ EvSocket true now :: mid ++ EvConnect now' :: post ∧
     Forall (λ ev, is_socket_event ev = false) pre ∧
     Forall (λ ev, ∀ n, ev ≠ EvConnect n) mid ∧
     Forall (λ ev, ev ≠ EvRequestTimeout) post).

(** The reading of the clock that an event carries, in milliseconds. *)
Definition event_clock (ev : Event) : option Z :=
  match ev with
  | EvSocket _ now | EvLookup now | EvConnect now
  | EvResponse _ _ now | EvEnd _ now => Some (getInterval now)
  | _ => None
  end.

(** The readings of the clock along [trace] never decrease and none is
    below [b]. *)
Fixpoint clock_monotone_from (b : Z) (trace : list Event) : Prop :=
  match trace with
  | [] => True
  | ev :: rest =>
      match event_clock ev with
      | Some n => b ≤ n ∧ clock_monotone_from n rest
      | None => clock_monotone_from b rest
      end
  end.

Definition is_timeout_event (ev : Event) : bool :=
  match ev with
  | EvSocketTimeout | EvRequestTimeout => true
  | _ => false
  end.

Definition is_response_event (ev : Event) : bool :=
  match ev with
  | EvResponse _ _ _ => true
  | _ => false
  end.

(** All six phases are defined. *)
Definition phases_complete (ph : TimingPhases.t) : Prop :=
  is_Some (TimingPhases.wait ph) ∧ is_Some (TimingPhases.dns ph) ∧
  is_Some (TimingPhases.tcp ph) ∧ is_Some (TimingPhases.firstByte ph) ∧
  is_Some (TimingPhases.download ph) ∧ is_Some (TimingPhases.total ph).



(** The number of ["timeout"] events in [trace]. *)
Definition timeout_events (trace : list Event) : nat :=
  length (List.filter is_timeout_event trace).

(** The [destroy()] calls made so far, plus those that the listeners that
    are registered, or can still be registered, can make. *)
Definition destroy_budget (st : State) : nat :=
  (destroyed st
   + (if connectionTimeoutListener st then 1 else 0)
   + (if readTimeoutListener st then 1 else 0)
   + (if connectListener st then 1 else 0)
   + (if socketListener st then 2 else 0))%nat.

(** The socket has been assigned: [socket] is recorded; once a response
    has arrived, so are [lookup], [connect] and [response]; and a fulfilled
    promise exposes complete phases. *)
Definition socket_first (st : State) : Prop :=
  ∃ t, store st !! timings_loc = Some t ∧
       is_Some (Timings.socket t) ∧
       ((0 < length (responses st))%nat →
        is_Some (Timings.lookup t) ∧ is_Some (Timings.connect t) ∧
        is_Some (Timings.response t)) ∧
       ∀ r, promise st = Fulfilled r →
            ∃ ph, ServiceClientResponse.timingPhases r = Some ph ∧
                  phases_complete ph.

(** The phases that cannot be negative when the clock does not run
    backwards. *)
Definition phases_ordered (ph : TimingPhases.t) : Prop :=
  (∀ w, TimingPhases.wait ph = Some w → 0 ≤ w) ∧
  (∀ d, TimingPhases.dns ph = Some d → 0 ≤ d) ∧
  (∀ d, TimingPhases.download ph = Some d → 0 ≤ d) ∧
  (∀ w t, TimingPhases.wait ph = Some w → TimingPhases.total ph = Some t →
          w ≤ t).

(** No checkpoint was recorded after [b]; [socket] is not negative and not
    after [lookup]; [end] is absent while the promise is pending; and the
    exposed phases are ordered. *)
Definition checkpoints_before (b : Z) (st : State) : Prop :=
  (∀ t, store st !! timings_loc = Some t →
        (∀ v, Timings.socket t = Some v → 0 ≤ v ≤ b) ∧
        (∀ v, Timings.lookup t = Some v →
              v ≤ b ∧ ∃ s, Timings.socket t = Some s ∧ s ≤ v) ∧
        (∀ v, Timings.connect t = Some v → v ≤ b) ∧
        (∀ v, Timings.response t = Some v → v ≤ b) ∧
        (∀ v, Timings.end_ t = Some v → v ≤ b) ∧
        (promise st = Pending → Timings.end_ t = None) ∧
        (socketListener st = true →
         Timings.socket t = None ∧ Timings.lookup t = None) ∧
        (lookupListener st = true → is_Some (Timings.socket t))) ∧
  (∀ ph, published_phases (promise st) = Some ph → phases_ordered ph).

(** * Properties *)

(** ** Basic facts about traces and the store *)

Section Basics.
Context `{NodeApi}.
Implicit Types (o : ServiceClientRequestOptions) (st : State) (ev : Event).

Lemma steps_app o st tr1 tr2 :
  steps o (steps o st tr1) tr2 = steps o st (tr1 ++ tr2).
Proof. unfold steps. by rewrite foldl_app. Qed.

Lemma steps_cons o st ev tr :
  steps o st (ev :: tr) = steps o (step o st ev) tr.
Proof. reflexivity. Qed.

Lemma run_app o tr1 tr2 :
  run o (tr1 ++ tr2) = steps (resolve_options o) (run o tr1) tr2.
Proof. unfold run. by rewrite steps_app. Qed.

Lemma run_snoc o tr ev :
  run o (tr ++ [ev]) = step (resolve_options o) (run o tr) ev.
Proof. by rewrite run_app. Qed.

Lemma timing_resolve_options o : timing (resolve_options o) = timing o.
Proof. reflexivity. Qed.

(** [originalReject] and [reject] leave everything but the promise alone. *)
Lemma originalReject_frame e st :
  originalReject e st = set_promise (promise (originalReject e st)) st.
Proof. unfold originalReject. destruct st as [? [] ? ? ? ? ? ? ? ? ? ?]; reflexivity. Qed.

Lemma reject_frame o msg st :
  reject o msg st = set_promise (promise (reject o msg st)) st.
Proof.
  unfold reject. destruct (timing o).
  - destruct (store st !! timings_loc); [apply originalReject_frame|].
    by destruct st.
  - apply originalReject_frame.
Qed.

End Basics.

Ltac unfold_listeners :=
  unfold step, unzip_end, unzip_write, on_end, on_data, on_response, on_socket,
    on_connect, on_lookup, on_connection_timeout, on_read_timeout,
    setReadTimeout, reject, originalReject, resolve, write_timings in *.

Ltac listener_cases :=
  unfold_listeners; simpl in *;
  repeat (case_match; simpl in *; simplify_eq; try done).

(** Lookups of the [Timings] object after a sequence of writes. *)
Ltac store_lookups :=
  repeat match goal with
  | Hx : context [alter _ timings_loc _ !! timings_loc] |- _ =>
      rewrite lookup_alter_eq in Hx
  | |- context [alter _ timings_loc _ !! timings_loc] =>
      rewrite lookup_alter_eq
  | Hs : store ?st !! timings_loc = Some _,
    Hx : context [store ?st !! timings_loc] |- _ =>
      lazymatch Hx with Hs => fail | _ => rewrite Hs in Hx end
  | Hs : store ?st !! timings_loc = Some _
    |- context [store ?st !! timings_loc] => rewrite Hs
  end.

Ltac timed_cases :=
  unfold_listeners; simpl in *; store_lookups; simpl in *;
  repeat (case_match; simpl in *; store_lookups; simpl in *; simplify_eq;
          try done).

Section StoreInvariant.
Context `{NodeApi}.
Implicit Types (o : ServiceClientRequestOptions) (st : State) (ev : Event).

(** No listener removes the [Timings] object from the store. *)
Lemma step_allocated o st ev :
  is_Some (store st !! timings_loc) →
  is_Some (store (step o st ev) !! timings_loc).
Proof.
  intros Hs. destruct ev; listener_cases; rewrite ?lookup_alter_is_Some; done.
Qed.

Lemma steps_allocated o st tr :
  is_Some (store st !! timings_loc) →
  is_Some (store (steps o st tr) !! timings_loc).
Proof.
  revert st. induction tr as [|ev tr IH]; intros st Hs; [done|].
  simpl. apply IH. by apply step_allocated.
Qed.

Lemma run_allocated o tr :
  timing o = true → is_Some (store (run o tr) !! timings_loc).
Proof.
  intros Ht. apply steps_allocated. unfold request. simpl.
  rewrite Ht. by rewrite lookup_singleton_eq.
Qed.

End StoreInvariant.

(** ** Timing phases *)

(** C4.  The phases that [makeTimingPhases] derives are consistent with the
    checkpoints: [wait] is [socket], [total] is [end], and [dns], [tcp],
    [firstByte] and [download] are the differences [lookup - socket],
    [connect - lookup], [response - connect] and [end - response]; each
    difference is defined exactly when both of its checkpoints are, and is
    absent (not zero, not negative) otherwise. *)
Theorem makeTimingPhases_consistent (t : Timings.t) :
  TimingPhases.wait (makeTimingPhases t) = Timings.socket t ∧
  derived_from (Timings.lookup t) (Timings.socket t)
    (TimingPhases.dns (makeTimingPhases t)) ∧
  derived_from (Timings.connect t) (Timings.lookup t)
    (TimingPhases.tcp (makeTimingPhases t)) ∧
  derived_from (Timings.response t) (Timings.connect t)
    (TimingPhases.firstByte (makeTimingPhases t)) ∧
  derived_from (Timings.end_ t) (Timings.response t)
    (TimingPhases.download (makeTimingPhases t)) ∧
  TimingPhases.total (makeTimingPhases t) = Timings.end_ t.
Proof.
  assert (Hsub : ∀ a b, derived_from a b (subtract a b)).
  { intros a b. split.
    - intros x y -> ->. reflexivity.
    - intros [-> | ->]; [reflexivity|]. by destruct a. }
  destruct t as [l s c r e]. simpl. repeat split; try apply Hsub.
Qed.

(** The checkpoints of the test "should record timings for timeout". *)
Lemma makeTimingPhases_consistent_witness :
  TimingPhases.dns (makeTimingPhases (Timings.mk (Some 10) (Some 10) (Some 10) (Some 100) None))
    = Some 0 ∧
  TimingPhases.download (makeTimingPhases (Timings.mk (Some 10) (Some 10) (Some 10) (Some 100) None))
    = None.
Proof.
  pose proof (makeTimingPhases_consistent
                (Timings.mk (Some 10) (Some 10) (Some 10) (Some 100) None))
    as (_ & [Hdns _] & _ & _ & [_ Hdl] & _).
  split.
  - exact (Hdns 10 10 eq_refl eq_refl).
  - exact (Hdl (or_introl eq_refl)).
Defined.

(** ** Path resolution *)

(** C7.  With a [pathname] and no explicit [path], the path handed to the
    transport is the pathname followed by [?] and the stringified query when
    a query is given, and the pathname alone otherwise; an explicit [path]
    is handed over unchanged, whatever the [pathname]. *)
Theorem path_resolution `{NodeApi} (o : ServiceClientRequestOptions) :
  let resolved := path (cr_options (requestObject (request o))) in
  (∀ pn q, pathname o = Some pn → path o = None → query o = Some q →
     resolved = Some (pn +:+ "?" +:+ querystring_stringify q)) ∧
  (∀ pn, pathname o = Some pn → path o = None → query o = None →
     resolved = Some pn) ∧
  (∀ p, path o = Some p → resolved = Some p).
Proof.
  simpl. repeat split.
  - by intros pn q -> -> ->.
  - by intros pn -> -> ->.
  - intros p ->. by destruct (pathname o).
Qed.

(** [pathname: "/foo"] with [query: {a: 1}], and [pathname: "/foo"] with
    [path: "/bar"], as in the test suite. *)
Lemma path_resolution_witness :
  path (cr_options (requestObject (@request reference_api
    (mkOptions None None None (Some "/foo") (Some [("a", QNum 1)]) false None None None))))
    = Some "/foo?a=1" ∧
  path (cr_options (requestObject (@request reference_api
    (mkOptions None None (Some "/bar") (Some "/foo") None false None None None))))
    = Some "/bar".
Proof.
  split.
  - exact (proj1 (@path_resolution reference_api
      (mkOptions None None None (Some "/foo") (Some [("a", QNum 1)]) false None None None))
      "/foo" [("a", QNum 1)] eq_refl eq_refl eq_refl).
  - exact (proj2 (proj2 (@path_resolution reference_api
      (mkOptions None None (Some "/bar") (Some "/foo") None false None None None)))
      "/bar" eq_refl).
Defined.

(** The earlier revision resolves the same path whenever the stringified
    query is not empty. *)
Lemma prior_path_resolution_agrees `{NodeApi} (o : ServiceClientRequestOptions) :
  (∀ q, query o = Some q → querystring_stringify q ≠ "") →
  Prior.resolve_path o = path (resolve_options o).
Proof.
  intros Hq. unfold Prior.resolve_path, resolve_options. simpl.
  destruct (pathname o), (path o); try done.
  destruct (query o) as [q|]; [|done].
  specialize (Hq q eq_refl). by case_decide.
Qed.

(** ** The response checkpoint *)

(** C8.  With timing on, the response-headers event records the [response]
    checkpoint, leaves [socket] as it is, and gives [lookup] and [connect]
    the value of [socket] when they had not been recorded; so both are
    defined afterwards whenever [socket] is. *)
Theorem response_marks_and_backfills `{NodeApi}
    (o : ServiceClientRequestOptions) (tr : list Event)
    (headers : option Headers) (statusCode : option Z) (now : hrtime) :
  timing o = true →
  ∃ t t',
    store (run o tr) !! timings_loc = Some t ∧
    store (run o (tr ++ [EvResponse headers statusCode now])) !! timings_loc
      = Some t' ∧
    Timings.response t' = Some (getInterval now) ∧
    Timings.socket t' = Timings.socket t ∧
    Timings.lookup t' =
      match Timings.lookup t with
      | Some v => Some v
      | None => Timings.socket t
      end ∧
    Timings.connect t' =
      match Timings.connect t with
      | Some v => Some v
      | None => Timings.socket t
      end ∧
    (is_Some (Timings.socket t) →
     is_Some (Timings.lookup t') ∧ is_Some (Timings.connect t')).
Proof.
  intros Ht. destruct (run_allocated o tr Ht) as [t Hst].
  rewrite run_snoc. simpl. unfold on_response, write_timings.
  rewrite ?timing_resolve_options, Ht. simpl.
  rewrite !lookup_alter_eq, Hst. simpl.
  eexists _, _. split; [done|]. split; [done|].
  destruct t as [[l|] s [c|] r e]; simpl; repeat split; eauto;
    intros [? ->]; eauto.
Qed.

(** A socket assigned at 10 ms on a transport that emits neither ["lookup"]
    nor ["connect"], and headers at 100 ms. *)
Lemma response_marks_and_backfills_witness :
  ∃ t',
    store (@run reference_api
             (mkOptions None None None None None true None None None)
             ([EvSocket true (ms 10)] ++ [EvResponse None (Some 200) (ms 100)]))
      !! timings_loc = Some t' ∧
    Timings.lookup t' = Some 10 ∧ Timings.connect t' = Some 10 ∧
    Timings.response t' = Some 100.
Proof.
  destruct (@response_marks_and_backfills reference_api
              (mkOptions None None None None None true None None None)
              [EvSocket true (ms 10)] None (Some 200) (ms 100) eq_refl)
    as (t & t' & Ht & Ht' & Hr & Hs & Hl & Hc & _).
  exists t'. split; [exact Ht'|].
  vm_compute in Ht. injection Ht as <-.
  rewrite Hl, Hc, Hr. simpl. repeat split.
Defined.

(** ** Settlement *)

Section Settlement.
Context `{NodeApi}.
Implicit Types (o : ServiceClientRequestOptions) (st : State) (ev : Event).

Lemma step_settled o st ev :
  promise st ≠ Pending → promise (step o st ev) = promise st.
Proof. intros Hp. destruct ev; listener_cases. Qed.

Lemma steps_settled o st tr :
  promise st ≠ Pending → promise (steps o st tr) = promise st.
Proof.
  revert st. induction tr as [|ev tr IH]; intros st Hp; [done|].
  simpl. rewrite IH; rewrite step_settled; done.
Qed.

(** A step that leaves the promise pending started from a pending
    promise. *)
Lemma step_pending o st ev :
  promise (step o st ev) = Pending → promise st = Pending.
Proof.
  intros Hp. destruct (promise st) eqn:Hst; [done| |];
    rewrite step_settled in Hp by (rewrite Hst; done); congruence.
Qed.

End Settlement.

(** C1, as the code has it.  The promise settles at most once: from the
    first call of [resolve] or [reject] on, whatever events follow, the
    promise holds the same [ServiceClientResponse] or the same fault, with
    the same [TimingPhases] object and the same reference to the [Timings]
    object.  (What later events do to the contents of that [Timings] object
    is not part of this statement.) *)
Theorem settlement_is_final `{NodeApi}
    (o : ServiceClientRequestOptions) (tr post : list Event) :
  promise (run o tr) ≠ Pending →
  promise (run o (tr ++ post)) = promise (run o tr) ∧
  published_phases (promise (run o (tr ++ post)))
    = published_phases (promise (run o tr)) ∧
  published_timings (promise (run o (tr ++ post)))
    = published_timings (promise (run o tr)).
Proof.
  intros Hp. rewrite run_app, steps_settled by done. done.
Qed.

(** A read timeout on a reused socket, followed by the response, its end and
    a transport error. *)
Lemma settlement_is_final_witness :
  promise (@run reference_api
             (mkOptions None (Some "c.com") None None None true None None (Some 500))
             ([EvSocket false (ms 10); EvRequestTimeout]
                ++ [EvResponse None (Some 200) (ms 100); EvEnd 0 (ms 150);
                    EvRequestError "socket hang up"]))
  = Rejected
      (ErrorWithTimings "Failed to read data within 500 ms from c.com"
         timings_loc
         (TimingPhases.mk (Some 10) (Some 0) (Some 0) None None None)).
Proof.
  rewrite (proj1 (@settlement_is_final reference_api
             (mkOptions None (Some "c.com") None None None true None None (Some 500))
             [EvSocket false (ms 10); EvRequestTimeout]
             [EvResponse None (Some 200) (ms 100); EvEnd 0 (ms 150);
              EvRequestError "socket hang up"]
             ltac:(vm_compute; discriminate))).
  vm_compute. reflexivity.
Defined.

(** C1, as the specification has it, fails.  A connecting socket is
    assigned at 10 ms and the connection timeout fires while the DNS lookup
    is still under way: the promise is rejected with an [ErrorWithTimings]
    on the [Timings] object of the execution, in which [lookup] is absent.
    The ["lookup"] listener is still registered; when the socket emits
    ["lookup"] at 5000 ms it writes that checkpoint into the object which
    the fault exposes. *)
Lemma later_events_are_not_inert :
  ¬ @later_events_are_inert reference_api
      (mkOptions None (Some "b.com") None None None true None (Some 100) None).
Proof.
  intros Hinert.
  destruct (Hinert [EvSocket true (ms 10); EvSocketTimeout] (EvLookup (ms 5000))
              ltac:(vm_compute; discriminate)) as [_ Hstore].
  specialize (Hstore timings_loc eq_refl).
  vm_compute in Hstore. discriminate Hstore.
Qed.

(** ** Reused sockets *)

Section Reused.
Context `{NodeApi}.
Implicit Types (o : ServiceClientRequestOptions) (st : State) (ev : Event).

Lemma step_socketListener o st ev :
  is_socket_event ev = false →
  socketListener st = true → socketListener (step o st ev) = true.
Proof. intros Hev Hs. destruct ev; listener_cases. Qed.

Lemma steps_socketListener o st tr :
  Forall (λ ev, is_socket_event ev = false) tr →
  socketListener st = true → socketListener (steps o st tr) = true.
Proof.
  intros Htr. revert st. induction Htr as [|ev tr Hev _ IH]; intros st Hs; [done|].
  simpl. apply IH. by apply step_socketListener.
Qed.

Lemma on_socket_reused o now st :
  timing o = true →
  socketListener st = true →
  lookupListener st = false → connectListener st = false →
  is_Some (store st !! timings_loc) →
  reused_at (getInterval now) (step o st (EvSocket false now)).
Proof.
  intros Ht Hs Hl Hc [t Hst]. unfold reused_at, step, on_socket, setReadTimeout,
    write_timings. rewrite Hs, Ht. simpl.
  repeat split; try done.
  rewrite !lookup_alter_eq, Hst. simpl. eauto.
Qed.

Lemma step_reused_at o v st ev :
  timing o = true → reused_at v st → reused_at v (step o st ev).
Proof.
  unfold reused_at.
  intros Ht (Hs & Hl & Hc & t & Hst & Hts & Htl & Htc).
  destruct t as [tl ts tc tr te]; simpl in *; subst.
  destruct ev; timed_cases; repeat split; try done;
    store_lookups; simpl; eauto.
Qed.

Lemma steps_reused_at o v st tr :
  timing o = true → reused_at v st → reused_at v (steps o st tr).
Proof.
  intros Ht. revert st. induction tr as [|ev tr IH]; intros st Hr; [done|].
  rewrite steps_cons. apply IH. by apply step_reused_at.
Qed.

Lemma step_exposes_zero o v st ev :
  timing o = true →
  reused_at v st → exposes_zero_dns_tcp (promise st) →
  exposes_zero_dns_tcp (promise (step o st ev)).
Proof.
  unfold reused_at, exposes_zero_dns_tcp.
  intros Ht (Hs & Hl & Hc & t & Hst & Hts & Htl & Htc) Hph.
  destruct t as [tl ts tc tr te]; simpl in *; subst.
  destruct ev; timed_cases;
    try (intros ph [= <-]; simpl; split; f_equal; lia);
    try (match goal with Hp : promise ?s = _ |- _ => rewrite Hp end; done).
Qed.

Lemma steps_exposes_zero o v st tr :
  timing o = true →
  reused_at v st → exposes_zero_dns_tcp (promise st) →
  exposes_zero_dns_tcp (promise (steps o st tr)).
Proof.
  intros Ht. revert st. induction tr as [|ev tr IH]; intros st Hr Hp; [done|].
  rewrite steps_cons. apply IH.
  - by apply step_reused_at.
  - by eapply step_exposes_zero.
Qed.

(** Before the socket is assigned, no listener of the socket is
    registered. *)
Lemma step_no_socket_listeners o st ev :
  socketListener st = true →
  lookupListener st = false ∧ connectListener st = false →
  is_socket_event ev = false →
  lookupListener (step o st ev) = false ∧ connectListener (step o st ev) = false.
Proof. intros Hs [Hl Hc] Hev. destruct ev; listener_cases. Qed.

Lemma steps_no_socket_listeners o st tr :
  Forall (λ ev, is_socket_event ev = false) tr →
  socketListener st = true →
  lookupListener st = false ∧ connectListener st = false →
  lookupListener (steps o st tr) = false ∧ connectListener (steps o st tr) = false.
Proof.
  intros Htr. revert st.
  induction Htr as [|ev tr Hev _ IH]; intros st Hs Hlc; [done|].
  simpl. apply IH.
  - by apply step_socketListener.
  - by apply step_no_socket_listeners.
Qed.

End Reused.

(** C5.  With timing on, when the socket that the request is given is not
    connecting (a reused, keep-alive socket), then from that event on and
    whatever follows, the recorded [lookup] and [connect] equal [socket],
    and the phases derived from the record have [dns = 0] and [tcp = 0];
    so do the phases that the promise exposes, when it settles after the
    socket was assigned. *)
Theorem reused_socket_timings `{NodeApi}
    (o : ServiceClientRequestOptions) (pre post : list Event) (now : hrtime) :
  timing o = true →
  Forall (λ ev, is_socket_event ev = false) pre →
  ∃ t,
    store (run o (pre ++ EvSocket false now :: post)) !! timings_loc = Some t ∧
    Timings.socket t = Some (getInterval now) ∧
    Timings.lookup t = Timings.socket t ∧
    Timings.connect t = Timings.socket t ∧
    TimingPhases.dns (makeTimingPhases t) = Some 0 ∧
    TimingPhases.tcp (makeTimingPhases t) = Some 0 ∧
    (promise (run o pre) = Pending →
     exposes_zero_dns_tcp (promise (run o (pre ++ EvSocket false now :: post)))).
Proof.
  intros Ht Hpre.
  assert (Hsock : socketListener (run o pre) = true)
    by (by apply steps_socketListener).
  destruct (steps_no_socket_listeners (resolve_options o) (request o) pre)
    as [Hl Hc]; [done..|].
  pose proof (on_socket_reused (resolve_options o) now (run o pre) Ht Hsock Hl Hc
                (run_allocated o pre Ht)) as Hreused.
  rewrite run_app, steps_cons.
  destruct (steps_reused_at (resolve_options o) _ _ post Ht Hreused)
    as (_ & _ & _ & t & Hst & Hts & Htl & Htc).
  exists t. unfold makeTimingPhases. rewrite Hst, Hts, Htl, Htc. simpl.
  split_and!; try done; try (f_equal; lia).
  intros Hp. eapply steps_exposes_zero; [done..|].
  unfold step, on_socket, setReadTimeout, write_timings.
  rewrite Hsock. simpl. rewrite Ht. simpl. rewrite Hp. by intros ph.
Qed.

(** The checkpoints of the test "should record timings for keep-alive
    connection". *)
Lemma reused_socket_timings_witness :
  ∃ t,
    store (@run reference_api
             (mkOptions None None None None None true None None None)
             ([] ++ EvSocket false (ms 10)
                 :: [EvResponse None (Some 200) (ms 30);
                     EvData 0 [x68; x69]; EvEnd 0 (ms 60)]))
      !! timings_loc = Some t ∧
    Timings.socket t = Some 10 ∧ Timings.lookup t = Some 10 ∧
    Timings.connect t = Some 10 ∧
    TimingPhases.dns (makeTimingPhases t) = Some 0 ∧
    TimingPhases.tcp (makeTimingPhases t) = Some 0.
Proof.
  destruct (@reused_socket_timings reference_api
              (mkOptions None None None None None true None None None)
              []
              [EvResponse None (Some 200) (ms 30); EvData 0 [x68; x69];
               EvEnd 0 (ms 60)]
              (ms 10) eq_refl (List.Forall_nil _))
    as (t & Hst & Hs & Hl & Hc & Hdns & Htcp & _).
  exists t. rewrite Hl, Hc, Hs. repeat split; assumption.
Defined.

(** ** Timeouts *)

Section Timeouts.
Context `{NodeApi}.
Implicit Types (o : ServiceClientRequestOptions) (st : State) (ev : Event).

(** The [end] checkpoint is written by the listener that resolves the
    promise, and by no other: while the promise is pending, [end] is
    absent. *)
Lemma step_pending_no_end o st ev :
  (promise st = Pending →
   ∀ t, store st !! timings_loc = Some t → Timings.end_ t = None) →
  promise (step o st ev) = Pending →
  ∀ t, store (step o st ev) !! timings_loc = Some t → Timings.end_ t = None.
Proof.
  intros Hinv Hp' t'. pose proof (step_pending _ _ _ Hp') as Hp.
  specialize (Hinv Hp). revert Hp'.
  destruct (store st !! timings_loc) as [[tl ts tc tr te]|] eqn:Hst.
  - specialize (Hinv _ eq_refl). simpl in Hinv. subst te.
    destruct ev; timed_cases; intros; simplify_eq; done.
  - destruct ev; unfold_listeners; simpl;
      repeat (case_match; simpl in *; simplify_eq; try done);
      rewrite ?lookup_alter_eq, ?Hst; try done;
      intros; simplify_eq;
      repeat match goal with
      | Hx : context [alter _ timings_loc _ !! timings_loc] |- _ =>
          rewrite lookup_alter_eq in Hx
      end; rewrite ?Hst in *; simplify_eq.
Qed.

Lemma run_pending_no_end o tr t :
  promise (run o tr) = Pending →
  store (run o tr) !! timings_loc = Some t → Timings.end_ t = None.
Proof.
  revert t. induction tr as [|ev tr IH] using rev_ind; intros t.
  - unfold run, request. simpl. destruct (timing o); simpl.
    + rewrite lookup_singleton_eq. by intros _ [= <-].
    + by rewrite lookup_empty.
  - rewrite run_snoc. intros Hp. revert t.
    apply step_pending_no_end; [|done]. intros Hp' t. by apply IH.
Qed.

(** [setReadTimeout] is reached from the ["socket"] listener when the
    socket is not connecting, and from the ["connect"] listener. *)
Lemma reused_socket_arms_read_timeout o st now :
  socketListener st = true →
  readTimeoutListener (step o st (EvSocket false now)) = true ∧
  requestTimeout (step o st (EvSocket false now)) = Some (readTimeout_ms o).
Proof. intros Hs. unfold step. rewrite Hs. by listener_cases. Qed.

Lemma connect_arms_read_timeout o st now :
  connectListener st = true →
  readTimeoutListener (step o st (EvConnect now)) = true ∧
  requestTimeout (step o st (EvConnect now)) = Some (readTimeout_ms o).
Proof. intros Hs. unfold step. rewrite Hs. by listener_cases. Qed.

(** Once registered, the read-timeout callback stays registered until the
    request emits ["timeout"]. *)
Lemma read_timeout_stays_armed o st ev :
  ev ≠ EvRequestTimeout →
  readTimeoutListener st = true → readTimeoutListener (step o st ev) = true.
Proof. intros Hev Hs. destruct ev; listener_cases. Qed.

(** The duration given to [requestObject.setTimeout] is the configured
    read timeout. *)
Lemma step_read_timeout_duration o st ev :
  (readTimeoutListener st = true → requestTimeout st = Some (readTimeout_ms o)) →
  readTimeoutListener (step o st ev) = true →
  requestTimeout (step o st ev) = Some (readTimeout_ms o).
Proof. intros Hinv. destruct ev; listener_cases; auto; congruence. Qed.

Lemma read_timeout_duration o tr :
  readTimeoutListener (run o tr) = true →
  requestTimeout (run o tr) = Some (readTimeout_ms o).
Proof.
  induction tr as [|ev tr IH] using rev_ind; [done|].
  rewrite run_snoc.
  exact (step_read_timeout_duration (resolve_options o) _ _ IH).
Qed.

Lemma steps_read_timeout_stays_armed o st tr :
  Forall (λ ev, ev ≠ EvRequestTimeout) tr →
  readTimeoutListener st = true → readTimeoutListener (steps o st tr) = true.
Proof.
  intros Htr. revert st. induction Htr as [|ev tr Hev _ IH]; intros st Hs; [done|].
  rewrite steps_cons. apply IH. by apply read_timeout_stays_armed.
Qed.

(** The ["connect"] listener stays registered until the socket emits
    ["connect"]. *)
Lemma connect_listener_stays o st ev :
  (∀ n, ev ≠ EvConnect n) →
  connectListener st = true → connectListener (step o st ev) = true.
Proof.
  intros Hev Hs. destruct ev; try (by destruct (Hev now)); listener_cases.
Qed.

Lemma steps_connect_listener_stays o st tr :
  Forall (λ ev, ∀ n, ev ≠ EvConnect n) tr →
  connectListener st = true → connectListener (steps o st tr) = true.
Proof.
  intros Htr. revert st. induction Htr as [|ev tr Hev _ IH]; intros st Hs; [done|].
  rewrite steps_cons. apply IH. by apply connect_listener_stays.
Qed.

Lemma usable_socket_arms_read_timeout o tr :
  socket_usable_for_reading tr → readTimeoutListener (run o tr) = true.
Proof.
  intros [(pre & now & post & -> & Hpre & Hpost)
         |(pre & now & mid & now' & post & -> & Hpre & Hmid & Hpost)].
  - rewrite run_app, steps_cons. apply steps_read_timeout_stays_armed; [done|].
    apply reused_socket_arms_read_timeout. by apply steps_socketListener.
  - rewrite run_app, steps_cons, <- steps_app, steps_cons.
    apply steps_read_timeout_stays_armed; [done|].
    apply connect_arms_read_timeout.
    apply steps_connect_listener_stays; [done|].
    assert (Hsock : socketListener (run o pre) = true)
      by (by apply steps_socketListener).
    unfold step. rewrite Hsock. by listener_cases.
Qed.

End Timeouts.

(** While the promise is pending, the read timeout of a socket that is
    usable for reading (it was reused, or it has connected) destroys the
    socket once and rejects the promise with
    [Failed to read data within <readTimeout> ms from <host>].  With timing
    on, the fault is an [ErrorWithTimings] on the [Timings] object of the
    execution, whose checkpoints are those recorded before the timeout,
    unchanged, with [end] absent, and whose phases are derived from these
    checkpoints. *)
Lemma read_timeout_fault `{NodeApi}
    (o : ServiceClientRequestOptions) (tr : list Event) :
  let msg :=
    "Failed to read data within " +:+ pretty (number_or (readTimeout o) 2000)
      +:+ " ms from " +:+ template_string (host o) in
  let before := run o tr in
  let after := run o (tr ++ [EvRequestTimeout]) in
  socket_usable_for_reading tr →
  promise before = Pending →
  requestTimeout before = Some (number_or (readTimeout o) 2000) ∧
  destroyed after = S (destroyed before) ∧
  (∃ e, promise after = Rejected e ∧ message e = msg) ∧
  (timing o = false → promise after = Rejected (Error msg)) ∧
  (timing o = true →
   ∃ t, store before !! timings_loc = Some t ∧
        store after !! timings_loc = Some t ∧
        Timings.end_ t = None ∧
        promise after
          = Rejected (ErrorWithTimings msg timings_loc (makeTimingPhases t))).
Proof.
  intros msg before after Husable Hpending. subst after.
  pose proof (usable_socket_arms_read_timeout o tr Husable) as Harmed.
  pose proof (read_timeout_duration o tr Harmed) as Hduration.
  fold before in Harmed, Hduration.
  rewrite run_snoc. fold before. unfold step. rewrite Harmed.
  unfold on_read_timeout, reject, originalReject. simpl.
  rewrite Hpending. simpl.
  destruct (timing o) eqn:Ht; simpl.
  - destruct (run_allocated o tr Ht) as [t Hst]. fold before in Hst.
    rewrite Hst. simpl. split_and!; [done|done|by eexists|done|].
    intros _. exists t. split_and!; try done.
    by eapply run_pending_no_end.
  - split_and!; [done|done|by eexists|done|done].
Qed.

(** The test "should record timings for timeout": a reused socket at 10 ms,
    headers at 100 ms, one chunk, then the read timeout of 500 ms. *)
Lemma read_timeout_fault_witness :
  promise (@run reference_api
             (mkOptions None (Some "c.com") None None None true None None (Some 500))
             ([EvSocket false (ms 10); EvResponse None None (ms 100);
               EvData 0 [x68; x69]] ++ [EvRequestTimeout]))
  = Rejected
      (ErrorWithTimings "Failed to read data within 500 ms from c.com"
         timings_loc
         (makeTimingPhases
            (Timings.mk (Some 10) (Some 10) (Some 10) (Some 100) None))).
Proof.
  assert (Husable : socket_usable_for_reading
                      [EvSocket false (ms 10); EvResponse None None (ms 100);
                       EvData 0 [x68; x69]]).
  { left. exists [], (ms 10), [EvResponse None None (ms 100); EvData 0 [x68; x69]].
    split; [reflexivity|]. split; [constructor|].
    repeat constructor; discriminate. }
  destruct (@read_timeout_fault reference_api
              (mkOptions None (Some "c.com") None None None true None None (Some 500))
              [EvSocket false (ms 10); EvResponse None None (ms 100);
               EvData 0 [x68; x69]]
              Husable eq_refl)
    as (_ & _ & _ & _ & Htimed).
  destruct (Htimed eq_refl) as (t & Hbefore & _ & _ & Hpromise).
  vm_compute in Hbefore. injection Hbefore as <-.
  exact Hpromise.
Defined.

(** The callback of [socket.setTimeout(connectionTimeout, ...)] is
    registered when the socket is connecting, with the configured
    duration. *)
Lemma connecting_socket_arms_connection_timeout `{NodeApi}
    (o : ServiceClientRequestOptions) (st : State) (now : hrtime) :
  socketListener st = true →
  connectionTimeoutListener (step o st (EvSocket true now)) = true ∧
  socketTimeout (step o st (EvSocket true now)) = Some (connectionTimeout o) ∧
  readTimeoutListener (step o st (EvSocket true now)) = readTimeoutListener st.
Proof. intros Hs. unfold step. rewrite Hs. by listener_cases. Qed.

(** When that callback runs while the promise is pending, the socket is
    destroyed once and the promise is rejected with
    [Could not connect within <timeout> ms to <host>]. *)
Lemma connection_timeout_fault `{NodeApi}
    (o : ServiceClientRequestOptions) (tr : list Event) :
  let msg :=
    "Could not connect within " +:+ pretty (number_or (timeout o) 1000)
      +:+ " ms to " +:+ template_string (host o) in
  connectionTimeoutListener (run o tr) = true →
  promise (run o tr) = Pending →
  destroyed (run o (tr ++ [EvSocketTimeout])) = S (destroyed (run o tr)) ∧
  connectionTimeoutListener (run o (tr ++ [EvSocketTimeout])) = false ∧
  ∃ e, promise (run o (tr ++ [EvSocketTimeout])) = Rejected e ∧ message e = msg.
Proof.
  intros msg Harmed Hpending.
  rewrite run_snoc. unfold step. rewrite Harmed.
  unfold on_connection_timeout, reject, originalReject. simpl.
  rewrite Hpending. simpl.
  destruct (timing o) eqn:Ht; simpl.
  - destruct (run_allocated o tr Ht) as [t Hst]. rewrite Hst. simpl.
    split_and!; [done..|by eexists].
  - split_and!; [done..|by eexists].
Qed.

(** C2 at the failing input.  A connecting socket is assigned, it connects,
    and then the socket emits ["timeout"]: the connection-timeout callback
    is still registered after ["connect"], it runs, destroys the socket and
    rejects the pending promise with the connection-timeout message. *)
Theorem connection_timeout_after_connect `{NodeApi}
    (o : ServiceClientRequestOptions) (now now' : hrtime) :
  let connected := run o [EvSocket true now; EvConnect now'] in
  let after := run o [EvSocket true now; EvConnect now'; EvSocketTimeout] in
  connectionTimeoutListener connected = true ∧
  readTimeoutListener connected = true ∧
  promise connected = Pending ∧
  destroyed after = 1%nat ∧
  ∃ e, promise after = Rejected e ∧
       message e =
         "Could not connect within " +:+ pretty (number_or (timeout o) 1000)
           +:+ " ms to " +:+ template_string (host o).
Proof.
  unfold run, request, steps. simpl.
  unfold on_socket, on_connect, setReadTimeout, on_connection_timeout, reject,
    originalReject, write_timings. simpl.
  destruct (timing o); simpl.
  - rewrite !lookup_alter_eq, lookup_singleton_eq. simpl.
    split_and!; [done..|by eexists].
  - split_and!; [done..|by eexists].
Qed.

(** The failing input of C2 with the options of the test "should reject the
    promise on connection timeout". *)
Example connection_timeout_after_connect_b_com :
  promise (@run reference_api
             (mkOptions None (Some "b.com") None None None false None (Some 100) None)
             [EvSocket true (ms 1); EvConnect (ms 5); EvSocketTimeout])
  = Rejected (Error "Could not connect within 100 ms to b.com").
Proof. vm_compute. reflexivity. Qed.

(** The same execution on a transport that, like Node's, lets the request
    re-emit the ["timeout"] of its socket: the read timeout of a socket that
    has connected is reported as a connection timeout, and the socket is
    destroyed twice. *)
Example read_timeout_reported_as_connection_timeout :
  promise (@run reference_api
             (mkOptions None (Some "b.com") None None None false None (Some 100)
                (Some 200))
             [EvSocket true (ms 1); EvConnect (ms 5); EvSocketTimeout;
              EvRequestTimeout])
  = Rejected (Error "Could not connect within 100 ms to b.com") ∧
  destroyed (@run reference_api
               (mkOptions None (Some "b.com") None None None false None (Some 100)
                  (Some 200))
               [EvSocket true (ms 1); EvConnect (ms 5); EvSocketTimeout;
                EvRequestTimeout])
  = 2%nat.
Proof. vm_compute. split; reflexivity. Qed.

(** C3 at the failing input.  A connecting socket is assigned and connects:
    the socket is usable for reading, the promise is pending and the read
    timer is armed with the configured duration.  No response arrives, the
    socket emits ["timeout"] and the request emits it in turn.  The
    connection-timeout callback is still registered and runs first: the
    promise is rejected with the connection-timeout message, not with
    [Failed to read data within <readTimeout> ms from <host>], and the socket
    is destroyed twice. *)
Theorem read_timeout_after_connect `{NodeApi}
    (o : ServiceClientRequestOptions) (now now' : hrtime) :
  let connected := [EvSocket true now; EvConnect now'] in
  let after := run o (connected ++ [EvSocketTimeout; EvRequestTimeout]) in
  socket_usable_for_reading connected ∧
  promise (run o connected) = Pending ∧
  requestTimeout (run o connected) = Some (number_or (readTimeout o) 2000) ∧
  destroyed after = 2%nat ∧
  ∃ e, promise after = Rejected e ∧
       message e =
         "Could not connect within " +:+ pretty (number_or (timeout o) 1000)
           +:+ " ms to " +:+ template_string (host o) ∧
       message e ≠
         "Failed to read data within " +:+ pretty (number_or (readTimeout o) 2000)
           +:+ " ms from " +:+ template_string (host o).
Proof.
  intros connected after.
  assert (Hstate : connectionTimeoutListener (run o connected) = true ∧
                   readTimeoutListener (run o connected) = true ∧
                   promise (run o connected) = Pending ∧
                   destroyed (run o connected) = 0%nat ∧
                   requestTimeout (run o connected)
                     = Some (number_or (readTimeout o) 2000)).
  { subst connected. unfold run, request, steps. simpl.
    unfold on_socket, on_connect, setReadTimeout, write_timings. simpl.
    by destruct (timing o). }
  destruct Hstate as (Hconn & Hread & Hpending & Hdestroyed & Hduration).
  destruct (connection_timeout_fault o connected Hconn Hpending)
    as (Hdestroyed' & _ & e & He & Hmsg).
  assert (Hread' : readTimeoutListener (run o (connected ++ [EvSocketTimeout]))
                   = true)
    by (rewrite run_snoc; by apply read_timeout_stays_armed).
  assert (Hafter : after = step (resolve_options o)
                             (run o (connected ++ [EvSocketTimeout]))
                             EvRequestTimeout).
  { subst after.
    replace (connected ++ [EvSocketTimeout; EvRequestTimeout])
      with ((connected ++ [EvSocketTimeout]) ++ [EvRequestTimeout])
      by (by rewrite <- app_assoc).
    apply run_snoc. }
  split_and!; try done.
  - right. exists [], now, [], now', []. split; [done|]. by split_and!.
  - rewrite Hafter. unfold step. rewrite Hread'. unfold on_read_timeout.
    rewrite reject_frame. cbn [destroyed set_promise set_destroyed
                               set_readTimeoutListener].
    by rewrite Hdestroyed', Hdestroyed.
  - exists e. split_and!; try done.
    + rewrite Hafter, step_settled; [done|]. by rewrite He.
    + rewrite Hmsg. discriminate.
Qed.

(** The failing input of C3 with the options of the test "should reject the
    promise on read timeout", on a socket that had to connect. *)
Example read_timeout_after_connect_a_com :
  promise (@run reference_api
             (mkOptions None (Some "a.com") None None None false None None
                (Some 200))
             [EvSocket true (ms 1); EvConnect (ms 5); EvSocketTimeout;
              EvRequestTimeout])
  = Rejected (Error "Could not connect within 1000 ms to a.com").
Proof. vm_compute. reflexivity. Qed.

(** ** The response body *)

Section Body.
Context `{NodeApi}.
Implicit Types (o : ServiceClientRequestOptions) (st : State) (ev : Event).
Implicit Types (rc : ResponseCtx) (i : nat).

Lemma Buffer_concat_exact (chunks : list Buffer) :
  Buffer_concat chunks (length (concat chunks)) = concat chunks.
Proof. unfold Buffer_concat. apply take_app_length. Qed.

Lemma Buffer_concat_single (chunk : Buffer) :
  Buffer_concat [chunk] (length chunk) = chunk.
Proof.
  unfold Buffer_concat. simpl. rewrite app_nil_r. apply take_app_length.
Qed.

(** The ["response"] listener appends a fresh closure and leaves the promise
    alone. *)
Lemma on_response_effect o st headers statusCode now :
  responses (step o st (EvResponse headers statusCode now))
    = responses st ++ [new_response headers statusCode] ∧
  promise (step o st (EvResponse headers statusCode now)) = promise st.
Proof. simpl. unfold on_response, write_timings. by destruct (timing o). Qed.

(** An event other than the end of the [i]-th response leaves the closure
    of that response alone, unless it is a chunk of that response. *)
Lemma step_response_ctx o st ev i rc :
  responses st !! i = Some rc →
  is_end_of i ev = false →
  responses (step o st ev) !! i
    = Some (match ev with
            | EvData j chunk => if decide (j = i) then feed rc chunk else rc
            | _ => rc
            end).
Proof.
  intros Hrc Hev. pose proof (lookup_lt_Some _ _ _ Hrc) as Hlt.
  destruct ev as [| | | | | |h s n|j chunk|j n|j m]; simpl in Hev.
  1-6: by listener_cases.
  - destruct (on_response_effect o st h s n) as [-> _].
    by rewrite lookup_app_l.
  - unfold feed. case_decide as Hj.
    + subst j. listener_cases; by rewrite list_lookup_insert_eq.
    + listener_cases; by rewrite ?list_lookup_insert_ne.
  - apply bool_decide_eq_false in Hev.
    listener_cases;
      rewrite ?list_lookup_insert_ne in * by done; simplify_eq;
      rewrite ?list_lookup_insert_ne by done; done.
  - by listener_cases.
Qed.

Lemma steps_response_ctx o st evs i rc :
  responses st !! i = Some rc →
  Forall (λ ev, is_end_of i ev = false) evs →
  responses (steps o st evs) !! i = Some (foldl feed rc (data_of i evs)).
Proof.
  intros Hrc Hevs. revert st rc Hrc.
  induction Hevs as [|ev evs Hev _ IH]; intros st rc Hrc; [done|].
  rewrite steps_cons.
  pose proof (step_response_ctx o st ev i rc Hrc Hev) as Hstep.
  destruct ev; simpl; try (by apply IH).
  case_decide; simpl; by apply IH.
Qed.

(** What a sequence of chunks does to a closure. *)
Lemma feed_raw rc (chunks : list Buffer) :
  rc_piped rc = false →
  foldl feed rc chunks
    = mkResponseCtx (rc_headers rc) (rc_statusCode rc) false
        (rc_unzip_input rc) (rc_unzip_open rc) (rc_chunks rc ++ chunks)
        (rc_bufferLength rc + length (concat chunks)).
Proof.
  revert rc. induction chunks as [|c chunks IH]; intros rc Hp.
  - destruct rc; simpl in *; subst. by rewrite app_nil_r, Nat.add_0_r.
  - simpl. rewrite IH by (unfold feed; by rewrite Hp).
    unfold feed. rewrite Hp. simpl. rewrite <- app_assoc, length_app. simpl.
    f_equal. lia.
Qed.

Lemma feed_piped rc (chunks : list Buffer) :
  rc_piped rc = true → rc_unzip_open rc = true →
  foldl feed rc chunks
    = mkResponseCtx (rc_headers rc) (rc_statusCode rc) true
        (rc_unzip_input rc ++ concat chunks) true
        (rc_chunks rc) (rc_bufferLength rc).
Proof.
  revert rc. induction chunks as [|c chunks IH]; intros rc Hp Ho.
  - destruct rc; simpl in *; subst. by rewrite app_nil_r.
  - simpl. rewrite IH by (unfold feed; by rewrite Hp, Ho).
    unfold feed. rewrite Hp, Ho. simpl. by rewrite <- app_assoc.
Qed.

(** The end of a response that is read as it is. *)
Lemma end_raw o st i rc now :
  responses st !! i = Some rc →
  rc_piped rc = false →
  promise st = Pending →
  (timing o = true → is_Some (store st !! timings_loc)) →
  ∃ r,
    promise (step o st (EvEnd i now)) = Fulfilled r ∧
    ServiceClientResponse.body r
      = Buffer_toString_utf8 (Buffer_concat (rc_chunks rc) (rc_bufferLength rc)) ∧
    ServiceClientResponse.statusCode r = number_or (rc_statusCode rc) 0 ∧
    ServiceClientResponse.headers r = rc_headers rc ∧
    ServiceClientResponse.request r = o.
Proof.
  intros Hrc Hraw Hp Hst. simpl. rewrite Hrc, Hraw.
  unfold on_end, resolve, write_timings. rewrite Hrc.
  destruct (timing o); simpl.
  - destruct Hst as [t Hst]; [done|].
    rewrite lookup_alter_eq, Hst. simpl. rewrite Hp. simpl. by eexists.
  - rewrite Hp. simpl. by eexists.
Qed.

(** The end of a response that is read through the unzip stream. *)
Lemma end_piped o st i rc now :
  responses st !! i = Some rc →
  rc_piped rc = true → rc_unzip_open rc = true →
  promise st = Pending →
  (timing o = true → is_Some (store st !! timings_loc)) →
  match zlib_unzip (rc_unzip_input rc) with
  | inr plain =>
      ∃ r,
        promise (step o st (EvEnd i now)) = Fulfilled r ∧
        ServiceClientResponse.body r
          = Buffer_toString_utf8
              (Buffer_concat (rc_chunks rc ++ [plain])
                 (rc_bufferLength rc + length plain)) ∧
        ServiceClientResponse.statusCode r = number_or (rc_statusCode rc) 0 ∧
        ServiceClientResponse.headers r = rc_headers rc ∧
        ServiceClientResponse.request r = o
  | inl msg =>
      promise (step o st (EvEnd i now))
        = promise (step o st (EvRequestError msg)) ∧
      ∃ e, promise (step o st (EvEnd i now)) = Rejected e ∧ message e = msg
  end.
Proof.
  intros Hrc Hpiped Hopen Hp Hst.
  pose proof (lookup_lt_Some _ _ _ Hrc) as Hlt.
  simpl. rewrite Hrc, Hpiped. unfold unzip_end. rewrite Hrc, Hopen.
  destruct (zlib_unzip (rc_unzip_input rc)) as [msg|plain].
  - unfold reject, originalReject. simpl. rewrite Hp.
    destruct (timing o); simpl.
    + destruct Hst as [t Hst]; [done|]. rewrite Hst. simpl.
      split; [done|by eexists].
    + split; [done|by eexists].
  - unfold on_end, on_data, resolve, write_timings. simpl.
    rewrite !list_lookup_insert_eq by (by rewrite ?length_insert). simpl.
    rewrite list_lookup_insert_eq by (by rewrite ?length_insert). simpl.
    destruct (timing o); simpl.
    + destruct Hst as [t Hst]; [done|].
      rewrite lookup_alter_eq, Hst. simpl. rewrite Hp. simpl. by eexists.
    + rewrite Hp. simpl. by eexists.
Qed.

(** Responses without a status code never produce a status code. *)
Lemma step_without_status o st ev :
  (∀ h s n, ev = EvResponse h s n → no_status s) →
  without_status st → without_status (step o st ev).
Proof.
  intros Hev [Hrcs Hval].
  assert (Hrc : ∀ i rc, responses st !! i = Some rc →
                        number_or (rc_statusCode rc) 0 = 0).
  { intros i rc Hi. by destruct (Forall_lookup_1 _ _ _ _ Hrcs Hi) as [-> | ->]. }
  assert (Hins : ∀ i rc rc', responses st !! i = Some rc →
                   rc_statusCode rc' = rc_statusCode rc →
                   Forall (λ rc, no_status (rc_statusCode rc))
                     (<[i := rc']> (responses st))).
  { intros i rc rc' Hi Heq. apply Forall_insert; [done|].
    rewrite Heq. exact (Forall_lookup_1 _ _ _ _ Hrcs Hi). }
  unfold without_status.
  destruct ev as [| | | | | |h s n|j chunk|j n|j m].
  1-6, 10: listener_cases; (split; [done|]); intros ? ?; simplify_eq;
    try (by apply Hval; congruence).
  - destruct (on_response_effect o st h s n) as [-> ->]. split; [|done].
    apply Forall_app. split; [done|]. apply Forall_singleton. simpl. eauto.
  - listener_cases; split; try done; by eapply Hins.
  - simpl. destruct (responses st !! j) as [rc|] eqn:Hj; [|done].
    pose proof (lookup_lt_Some _ _ _ Hj) as Hlt.
    destruct (rc_piped rc).
    + unfold unzip_end. rewrite Hj. destruct (rc_unzip_open rc); [|done].
      destruct (zlib_unzip (rc_unzip_input rc)) as [msg|plain].
      * rewrite reject_frame. simpl. split; [by eapply Hins|].
        unfold reject, originalReject. simpl. intros r.
        destruct (timing o), (store st !! timings_loc), (promise st) eqn:Hp;
          simpl; try done; rewrite ?Hp; try done; apply Hval.
      * unfold on_end, on_data. simpl.
        rewrite !list_lookup_insert_eq by (by rewrite ?length_insert). simpl.
        rewrite list_lookup_insert_eq by (by rewrite ?length_insert). simpl.
        rewrite !list_insert_insert_eq.
        unfold resolve, write_timings.
        destruct (timing o); simpl;
          repeat (case_match; simpl in *; simplify_eq; try done);
          (split; [by eapply Hins|]); intros r' Hr'; simplify_eq; simpl;
          try (by eapply Hrc); try (by apply Hval; congruence).
    + unfold on_end. rewrite Hj.
      unfold resolve, write_timings.
      destruct (timing o); simpl;
        repeat (case_match; simpl in *; simplify_eq; try done);
        (split; [by eapply Hins|]); intros r' Hr'; simplify_eq; simpl;
        try (by eapply Hrc); try (by apply Hval; congruence).
Qed.

Lemma steps_without_status o st tr :
  (∀ h s n, EvResponse h s n ∈ tr → no_status s) →
  without_status st → without_status (steps o st tr).
Proof.
  revert st. induction tr as [|ev tr IH]; intros st Htr Hst; [done|].
  rewrite steps_cons. apply IH.
  - intros h s n Hin. apply (Htr h s n). by right.
  - apply step_without_status; [|done].
    intros h s n ->. apply (Htr h s n). by left.
Qed.

(** The closure of a response just before its end: the fresh closure, fed
    with the chunks of that response. *)
Lemma response_ctx_before_end o tr headers statusCode now evs :
  let i := length (responses (run o tr)) in
  Forall (λ ev, is_end_of i ev = false) evs →
  responses (run o (tr ++ EvResponse headers statusCode now :: evs)) !! i
    = Some (foldl feed (new_response headers statusCode) (data_of i evs)).
Proof.
  intros i Hevs. rewrite run_app, steps_cons.
  apply steps_response_ctx; [|done].
  destruct (on_response_effect (resolve_options o) (run o tr)
              headers statusCode now) as [-> _].
  apply list_lookup_middle. done.
Qed.

Lemma run_end o tr ev evs last :
  run o (tr ++ ev :: evs ++ [last])
    = step (resolve_options o) (run o (tr ++ ev :: evs)) last.
Proof.
  replace (tr ++ ev :: evs ++ [last]) with ((tr ++ ev :: evs) ++ [last])
    by (by rewrite <- app_assoc).
  apply run_snoc.
Qed.

End Body.

(** C9.  When a response ends while the promise is pending, the promise is
    fulfilled with the UTF-8 decoding of the concatenation, in order of
    arrival, of all the chunks that [bodyStream] emitted, whatever other
    events arrived in between; the byte counter that is handed to
    [Buffer.concat] is the length of that concatenation.  The decoding is
    applied once, to the whole, so that a character whose bytes arrive in
    different chunks is decoded as one character. *)
Theorem body_is_utf8_of_all_chunks `{NodeApi}
    (o : ServiceClientRequestOptions) (tr evs : list Event)
    (headers : option Headers) (statusCode : option Z) (now now' : hrtime)
    (chunks : list Buffer) :
  let i := length (responses (run o tr)) in
  let before := run o (tr ++ EvResponse headers statusCode now :: evs) in
  let after :=
    run o (tr ++ EvResponse headers statusCode now :: evs ++ [EvEnd i now']) in
  Forall (λ ev, is_end_of i ev = false) evs →
  promise before = Pending →
  body_stream_chunks (is_compressed (content_encoding headers)) (data_of i evs)
    = Some chunks →
  (is_compressed (content_encoding headers) = false →
   ∃ rc, responses before !! i = Some rc ∧
         rc_chunks rc = chunks ∧
         rc_bufferLength rc = length (concat chunks)) ∧
  ∃ r, promise after = Fulfilled r ∧
       ServiceClientResponse.body r = Buffer_toString_utf8 (concat chunks).
Proof.
  intros i before after Hevs Hpending Hchunks. subst after.
  rewrite run_end. fold before.
  pose proof (response_ctx_before_end o tr headers statusCode now evs Hevs)
    as Hrc. fold i before in Hrc.
  assert (Halloc : timing (resolve_options o) = true →
                   is_Some (store before !! timings_loc))
    by (intros Ht; by apply run_allocated).
  unfold body_stream_chunks in Hchunks.
  destruct (is_compressed (content_encoding headers)) eqn:Hc.
  - split; [done|].
    rewrite feed_piped in Hrc by (unfold new_response; simpl; done).
    pose proof (end_piped (resolve_options o) before i _ now' Hrc eq_refl eq_refl
                  Hpending Halloc) as Hend.
    simpl in Hend.
    destruct (zlib_unzip (concat (data_of i evs))) as [msg|plain]; [done|].
    injection Hchunks as <-.
    destruct Hend as (r & Hr & Hbody & _). exists r. split; [done|].
    rewrite Hbody. simpl. rewrite Buffer_concat_single.
    by rewrite ?app_nil_r.
  - injection Hchunks as <-.
    rewrite feed_raw in Hrc by (unfold new_response; simpl; done).
    split; [intros _; by eexists|].
    destruct (end_raw (resolve_options o) before i _ now' Hrc eq_refl
                Hpending Halloc) as (r & Hr & Hbody & _).
    exists r. split; [done|]. rewrite Hbody. simpl.
    by rewrite Buffer_concat_exact.
Qed.

(** The test "should support responses chunked between utf8 boundaries":
    the two bytes [d1 8f] of U+044F arrive in two chunks. *)
Lemma body_is_utf8_of_all_chunks_witness :
  ∃ r,
    promise (@run reference_api
               (mkOptions None None None None None false None None None)
               ([] ++ EvResponse None None (ms 0)
                   :: [EvData 0 [xd1]; EvData 0 [x8f]] ++ [EvEnd 0 (ms 0)]))
      = Fulfilled r ∧
    ServiceClientResponse.body r = [0x44f%N].
Proof.
  destruct (@body_is_utf8_of_all_chunks reference_api
              (mkOptions None None None None None false None None None)
              [] [EvData 0 [xd1]; EvData 0 [x8f]] None None (ms 0) (ms 0)
              [[xd1]; [x8f]]
              ltac:(repeat constructor) eq_refl eq_refl)
    as [_ (r & Hr & Hbody)].
  exists r. split; [exact Hr|]. rewrite Hbody. reflexivity.
Defined.

(** C6.  When the [content-encoding] header of a response is [gzip] or
    [deflate], the body is what the decoder makes of the payload: a valid
    payload fulfils the promise with the decoding of its plaintext, and a
    malformed payload rejects it, with the error of the decoder and in the
    way an error of the transport would have rejected it at that point (so
    never with a success).  With any other header value, or none, the body
    is the decoding of the payload as it arrived. *)
Theorem content_encoding_dispatch `{NodeApi}
    (o : ServiceClientRequestOptions) (tr evs : list Event)
    (headers : option Headers) (statusCode : option Z) (now now' : hrtime) :
  let i := length (responses (run o tr)) in
  let before := run o (tr ++ EvResponse headers statusCode now :: evs) in
  let after :=
    run o (tr ++ EvResponse headers statusCode now :: evs ++ [EvEnd i now']) in
  let encoding := headers ≫= λ h : Headers, h !! "content-encoding" in
  let payload := concat (data_of i evs) in
  Forall (λ ev, is_end_of i ev = false) evs →
  promise before = Pending →
  (encoding = Some "gzip" ∨ encoding = Some "deflate" →
   match zlib_unzip payload with
   | inr plain =>
       ∃ r, promise after = Fulfilled r ∧
            ServiceClientResponse.body r = Buffer_toString_utf8 plain
   | inl msg =>
       promise after
         = promise (step (resolve_options o) before (EvRequestError msg)) ∧
       ∃ e, promise after = Rejected e ∧ message e = msg
   end) ∧
  (encoding ≠ Some "gzip" → encoding ≠ Some "deflate" →
   ∃ r, promise after = Fulfilled r ∧
        ServiceClientResponse.body r = Buffer_toString_utf8 payload).
Proof.
  intros i before after encoding payload Hevs Hpending. subst after.
  rewrite run_end. fold before.
  pose proof (response_ctx_before_end o tr headers statusCode now evs Hevs)
    as Hrc. fold i before in Hrc.
  assert (Halloc : timing (resolve_options o) = true →
                   is_Some (store before !! timings_loc))
    by (intros Ht; by apply run_allocated).
  split.
  - intros Henc.
    assert (Hc : is_compressed (content_encoding headers) = true).
    { unfold is_compressed. change (content_encoding headers) with encoding.
      destruct Henc as [He | He]; rewrite He; reflexivity. }
    rewrite feed_piped in Hrc by (unfold new_response; simpl; done).
    pose proof (end_piped (resolve_options o) before i _ now' Hrc eq_refl eq_refl
                  Hpending Halloc) as Hend.
    simpl in Hend. fold payload in Hend.
    destruct (zlib_unzip payload) as [msg|plain]; [done|].
    destruct Hend as (r & Hr & Hbody & _). exists r. split; [done|].
    rewrite Hbody. simpl. rewrite Buffer_concat_single.
    by rewrite ?app_nil_r.
  - intros Hgzip Hdeflate.
    assert (Hc : is_compressed (content_encoding headers) = false).
    { unfold is_compressed. change (content_encoding headers) with encoding.
      by rewrite !bool_decide_eq_false_2. }
    rewrite feed_raw in Hrc by (unfold new_response; simpl; done).
    destruct (end_raw (resolve_options o) before i _ now' Hrc eq_refl
                Hpending Halloc) as (r & Hr & Hbody & _).
    exists r. split; [done|]. rewrite Hbody. simpl.
    by rewrite Buffer_concat_exact.
Qed.

(** A [gzip] response whose payload arrives in two chunks, once well-formed
    for the reference decoder and once not. *)
Lemma content_encoding_dispatch_witness :
  (∃ r,
     promise (@run reference_api
                (mkOptions None None None None None false None None None)
                ([] ++ EvResponse (Some {[ "content-encoding" := "gzip" ]})
                         (Some 200) (ms 0)
                    :: [EvData 0 [x1f; x8b; x68]; EvData 0 [x69]]
                    ++ [EvEnd 0 (ms 0)]))
       = Fulfilled r ∧
     ServiceClientResponse.body r = [0x68%N; 0x69%N]) ∧
  (∃ e,
     promise (@run reference_api
                (mkOptions None None None None None false None None None)
                ([] ++ EvResponse (Some {[ "content-encoding" := "gzip" ]})
                         (Some 200) (ms 0)
                    :: [EvData 0 [x68]; EvData 0 [x69]] ++ [EvEnd 0 (ms 0)]))
       = Rejected e ∧
     message e = "incorrect header check").
Proof.
  split.
  - destruct (@content_encoding_dispatch reference_api
                (mkOptions None None None None None false None None None)
                [] [EvData 0 [x1f; x8b; x68]; EvData 0 [x69]]
                (Some {[ "content-encoding" := "gzip" ]}) (Some 200) (ms 0) (ms 0)
                ltac:(repeat constructor) eq_refl)
      as [Hcompressed _].
    specialize (Hcompressed (or_introl eq_refl)). simpl in Hcompressed.
    destruct Hcompressed as (r & Hr & Hbody).
    exists r. split; [exact Hr|]. rewrite Hbody. reflexivity.
  - destruct (@content_encoding_dispatch reference_api
                (mkOptions None None None None None false None None None)
                [] [EvData 0 [x68]; EvData 0 [x69]]
                (Some {[ "content-encoding" := "gzip" ]}) (Some 200) (ms 0) (ms 0)
                ltac:(repeat constructor) eq_refl)
      as [Hcompressed _].
    specialize (Hcompressed (or_introl eq_refl)). simpl in Hcompressed.
    exact (proj2 Hcompressed).
Defined.

(** C10.  When no response that the transport delivered carried a status
    code ([undefined], or the falsy [0]), the [statusCode] of the
    [ServiceClientResponse] that fulfils the promise is [0]; being a number,
    it is never [undefined]. *)
Theorem status_code_defaults_to_zero `{NodeApi}
    (o : ServiceClientRequestOptions) (tr : list Event)
    (r : ServiceClientResponse.t) :
  (∀ h s n, EvResponse h s n ∈ tr → no_status s) →
  promise (run o tr) = Fulfilled r →
  ServiceClientResponse.statusCode r = 0.
Proof.
  intros Htr Hr.
  destruct (steps_without_status (resolve_options o) (request o) tr Htr)
    as [_ Hval].
  - split; [by apply Forall_nil|]. done.
  - by apply Hval.
Qed.

(** The test "should resolve the promise with full response on success":
    the stub response has no [statusCode]. *)
Lemma status_code_defaults_to_zero_witness :
  ∃ r,
    promise (@run reference_api
               (mkOptions None None None None None false None None None)
               [EvResponse None None (ms 0); EvData 0 [x68; x69]; EvEnd 0 (ms 0)])
      = Fulfilled r ∧
    ServiceClientResponse.statusCode r = 0.
Proof.
  eexists. split; [vm_compute; reflexivity|].
  apply (@status_code_defaults_to_zero reference_api
           (mkOptions None None None None None false None None None)
           [EvResponse None None (ms 0); EvData 0 [x68; x69]; EvEnd 0 (ms 0)]).
  - intros h s n Hin.
    apply elem_of_cons in Hin as [Heq | Hin]; [injection Heq as -> -> ->; by left|].
    apply elem_of_cons in Hin as [Heq | Hin]; [discriminate Heq|].
    apply elem_of_cons in Hin as [Heq | Hin]; [discriminate Heq|].
    by apply elem_of_nil in Hin.
  - vm_compute. reflexivity.
Defined.

(** * Further properties of [lib/request.ts] *)

(** ** The clock *)

Section NumberFacts.
Local Open Scope Q_scope.

Lemma Qfloor_eq (x : Q) (z : Z) :
  inject_Z z <= x → x < inject_Z (z + 1) → Qfloor x = z.
Proof.
  intros H1 H2.
  pose proof (Qfloor_le x) as Hlo. pose proof (Qlt_floor x) as Hhi.
  assert (z < Qfloor x + 1)%Z as Ha by (rewrite Zlt_Qlt; lra).
  assert (Qfloor x < z + 1)%Z as Hb by (rewrite Zlt_Qlt; lra).
  lia.
Qed.

Lemma binary64_integer (z : Z) : (Z.abs z < 2 ^ 53)%Z → binary64 (inject_Z z).
Proof. intros Hz. exists z, 0%Z. split; [done|]. split; [lia|]. simpl. lra. Qed.

Lemma binary64_half_integer (z : Z) :
  (Z.abs (2 * z + 1) < 2 ^ 53)%Z → binary64 (inject_Z z + (1 # 2)).
Proof.
  intros Hz. exists (2 * z + 1)%Z, (-1)%Z. split; [done|]. split; [lia|].
  rewrite inject_Z_plus, inject_Z_mult.
  change (Qpower 2 (-1)) with (1 # 2).
  change (inject_Z 2) with 2. change (inject_Z 1) with 1. lra.
Qed.

Section Number.
Variable fl : Q → Q.
Hypothesis Hfl : rounds_to_nearest fl.

Lemma fl_exact x : binary64 x → fl x == x.
Proof. apply Hfl. Qed.

Lemma fl_close x :
  1 # 1000000000 <= x → x <= 10000000000 →
  x - x / 9007199254740992 <= fl x <= x + x / 9007199254740992.
Proof.
  intros Hlo Hhi. destruct Hfl as [_ Hrel].
  assert (Hx : Qabs x == x) by (apply Qabs_pos; lra).
  assert (H1 : Qpower 2 (-1022) <= Qabs x).
  { rewrite Hx. apply Qle_trans with (1 # 1000000000); [|done].
    vm_compute. discriminate. }
  assert (H2 : Qabs x <= Qpower 2 1023).
  { rewrite Hx. apply Qle_trans with 10000000000; [done|].
    vm_compute. discriminate. }
  specialize (Hrel x H1 H2). rewrite Hx in Hrel.
  change (Qpower 2 53) with 9007199254740992 in Hrel.
  apply Qabs_Qle_condition in Hrel. lra.
Qed.


Lemma binary64_proper x y : x == y → binary64 x → binary64 y.
Proof. intros Hxy (m & e & Hm & He & Hx). exists m, e. by rewrite <- Hxy. Qed.

Lemma inject_Z_bounds (lo z hi : Z) :
  (lo ≤ z ≤ hi)%Z → inject_Z lo <= inject_Z z <= inject_Z hi.
Proof. intros [? ?]. split; rewrite <- Zle_Qle; done. Qed.

Lemma getInterval_number_exact (s ns : Z) :
  (0 ≤ s)%Z → (0 ≤ ns < 1000000000)%Z → (s * 1000 + 1000 ≤ 2 ^ 33)%Z →
  getInterval_number fl (s, ns) = getInterval (s, ns).
Proof.
  intros Hs Hns Hrange. unfold getInterval_number, getInterval, Math_round.
  cbn [fst snd].
  pose proof (Z.div_mod ns 1000000 ltac:(lia)) as Hdm.
  pose proof (Z.mod_pos_bound ns 1000000 ltac:(lia)) as Hf.
  set (q := (ns / 1000000)%Z) in *. set (f := (ns mod 1000000)%Z) in *.
  assert (Hq : (0 ≤ q ≤ 999)%Z) by lia.
  pose proof (inject_Z_bounds _ _ _ Hq) as Hq'.
  pose proof (inject_Z_bounds 0 s 8589933 ltac:(lia)) as Hs'.
  assert (HB : inject_Z ns / 1000000 == inject_Z q + inject_Z f / 1000000).
  { rewrite Hdm, inject_Z_plus, inject_Z_mult.
    change (inject_Z 1000000) with 1000000. field. }
  assert (Ha : fl (inject_Z s * 1000) == inject_Z s * 1000).
  { apply fl_exact. apply (binary64_proper (inject_Z (s * 1000))).
    - by rewrite inject_Z_mult.
    - apply binary64_integer. lia. }
  change (inject_Z 0) with 0 in *. change (inject_Z 999) with 999 in *.
  change (inject_Z 8589933) with 8589933 in *.
  set (a := fl (inject_Z s * 1000)) in *.
  set (b := fl (inject_Z ns / 1000000)) in *.
  assert (Hcases : (f = 500000 ∨ ns = 0 ∨ (1 ≤ ns ∧ f ≤ 499999) ∨ 500001 ≤ f)%Z)
    by lia.
  destruct Hcases as [Hf5 | [Hns0 | [[Hns1 Hlow] | Hhigh]]].
  - (* exactly half: every intermediate result is a double *)
    assert (HBh : inject_Z ns / 1000000 == inject_Z q + (1 # 2)).
    { rewrite HB, Hf5. change (inject_Z 500000) with 500000. field. }
    assert (Hb : b == inject_Z q + (1 # 2)).
    { subst b. apply Qeq_trans with (inject_Z ns / 1000000); [|exact HBh].
      apply fl_exact.
      apply (binary64_proper (inject_Z q + (1 # 2))); [by rewrite HBh|].
      apply binary64_half_integer. lia. }
    assert (HY : a + b == inject_Z (s * 1000 + q) + (1 # 2)).
    { rewrite Ha, Hb, inject_Z_plus, inject_Z_mult.
      change (inject_Z 1000) with 1000. ring. }
    assert (Hc : fl (a + b) == a + b).
    { apply fl_exact.
      apply (binary64_proper (inject_Z (s * 1000 + q) + (1 # 2))); [by rewrite HY|].
      apply binary64_half_integer. lia. }
    replace ((ns + 500000) / 1000000)%Z with (q + 1)%Z
      by (apply Z.div_unique with 0%Z; lia).
    apply Qfloor_eq; rewrite Hc, HY, !inject_Z_plus, ?inject_Z_mult;
      change (inject_Z 1000) with 1000; change (inject_Z 1) with 1; lra.
  - (* no nanoseconds: every intermediate result is an integer *)
    assert (Hb : b == 0).
    { subst b. rewrite Hns0.
      apply Qeq_trans with (inject_Z 0 / 1000000); [|reflexivity].
      apply fl_exact.
      apply (binary64_proper (inject_Z 0)); [reflexivity|].
      by apply binary64_integer. }
    assert (HY : a + b == inject_Z (s * 1000)).
    { rewrite Ha, Hb, inject_Z_mult. change (inject_Z 1000) with 1000. ring. }
    assert (Hc : fl (a + b) == a + b).
    { apply fl_exact.
      apply (binary64_proper (inject_Z (s * 1000))); [by rewrite HY|].
      apply binary64_integer. lia. }
    rewrite Hns0. change ((0 + 500000) / 1000000)%Z with 0%Z.
    apply Qfloor_eq; rewrite Hc, HY, ?inject_Z_plus, ?inject_Z_mult;
      change (inject_Z 1000) with 1000; change (inject_Z 1) with 1;
      change (inject_Z 0) with 0; lra.
  - (* below the half *)
    pose proof (inject_Z_bounds 0 f 499999 ltac:(lia)) as Hf'.
    change (inject_Z 0) with 0 in Hf'. change (inject_Z 499999) with 499999 in Hf'.
    pose proof (inject_Z_bounds 1 ns 999999999 ltac:(lia)) as Hns'.
    change (inject_Z 1) with 1 in Hns'.
    change (inject_Z 999999999) with 999999999 in Hns'.
    assert (HnsB : 1000000 * (inject_Z ns / 1000000) == inject_Z ns) by field.
    assert (HfB : 1000000 * (inject_Z f / 1000000) == inject_Z f) by field.
    set (B := inject_Z ns / 1000000) in *.
    set (F := inject_Z f / 1000000) in *.
    pose proof (fl_close B ltac:(lra) ltac:(lra)) as Hb. fold b in Hb.
    set (u := B / 9007199254740992) in *.
    assert (Hu : 9007199254740992 * u == B) by (subst u; field).
    pose proof (fl_close (a + b) ltac:(lra) ltac:(lra)) as Hc.
    set (v := (a + b) / 9007199254740992) in *.
    assert (Hv : 9007199254740992 * v == a + b) by (subst v; field).
    replace ((ns + 500000) / 1000000)%Z with q
      by (apply Z.div_unique with (f + 500000)%Z; lia).
    apply Qfloor_eq; rewrite ?inject_Z_plus, ?inject_Z_mult;
      change (inject_Z 1000) with 1000; change (inject_Z 1) with 1; lra.
  - (* above the half *)
    pose proof (inject_Z_bounds 500001 f 999999 ltac:(lia)) as Hf'.
    change (inject_Z 500001) with 500001 in Hf'.
    change (inject_Z 999999) with 999999 in Hf'.
    assert (HfB : 1000000 * (inject_Z f / 1000000) == inject_Z f) by field.
    set (B := inject_Z ns / 1000000) in *.
    set (F := inject_Z f / 1000000) in *.
    pose proof (fl_close B ltac:(lra) ltac:(lra)) as Hb. fold b in Hb.
    set (u := B / 9007199254740992) in *.
    assert (Hu : 9007199254740992 * u == B) by (subst u; field).
    pose proof (fl_close (a + b) ltac:(lra) ltac:(lra)) as Hc.
    set (v := (a + b) / 9007199254740992) in *.
    assert (Hv : 9007199254740992 * v == a + b) by (subst v; field).
    replace ((ns + 500000) / 1000000)%Z with (q + 1)%Z
      by (apply Z.div_unique with (f - 500000)%Z; lia).
    apply Qfloor_eq; rewrite ?inject_Z_plus, ?inject_Z_mult;
      change (inject_Z 1000) with 1000; change (inject_Z 1) with 1; lra.
Qed.

End Number.

End NumberFacts.

(** For every elapsed time below [2 ^ 33] ms, and for every arithmetic that
    rounds to the nearest double, line 16 returns what [getInterval]
    returns: the elapsed time rounded to the nearest millisecond, a half
    being rounded up.  It differs from the elapsed nanoseconds by at most
    half a millisecond. *)
Theorem getInterval_nearest_millisecond (fl : Q → Q) (s ns : Z) :
  rounds_to_nearest fl →
  0 ≤ s → 0 ≤ ns < 1000000000 → s * 1000 + 1000 ≤ 2 ^ 33 →
  getInterval_number fl (s, ns) = getInterval (s, ns) ∧
  -500000 < 1000000 * getInterval_number fl (s, ns) - (s * 1000000000 + ns)
    ≤ 500000.
Proof.
  intros Hfl Hs Hns Hrange.
  rewrite (getInterval_number_exact fl Hfl s ns Hs Hns Hrange).
  split; [done|]. unfold getInterval. simpl.
  pose proof (Z.div_mod (ns + 500000) 1000000 ltac:(lia)) as Hdm.
  pose proof (Z.mod_pos_bound (ns + 500000) 1000000 ltac:(lia)) as Hm.
  lia.
Qed.

(** Exact arithmetic rounds to the nearest double. *)
Lemma exact_arithmetic_rounds_to_nearest : rounds_to_nearest (λ x, x).
Proof.
  split; [done|]. intros x _ _.
  assert (Hz : (x - x == 0)%Q) by ring. rewrite Hz. simpl.
  apply Qle_shift_div_l; [done|]. rewrite Qmult_0_l. apply Qabs_nonneg.
Qed.

(** 1.0015 s is reported as 1002 ms. *)
Lemma getInterval_nearest_millisecond_witness :
  getInterval_number (λ x, x) (1, 1500000) = 1002.
Proof.
  exact (proj1 (getInterval_nearest_millisecond (λ x, x) 1 1500000
                  exact_arithmetic_rounds_to_nearest
                  ltac:(lia) ltac:(lia) ltac:(lia))).
Defined.

(** [getInterval] is monotone in the elapsed time. *)
Theorem getInterval_monotone (s1 ns1 s2 ns2 : Z) :
  s1 * 1000000000 + ns1 ≤ s2 * 1000000000 + ns2 →
  getInterval (s1, ns1) ≤ getInterval (s2, ns2).
Proof.
  intros Hle. unfold getInterval. simpl.
  rewrite <- !Z.div_add_l by lia.
  apply Z.div_le_mono; lia.
Qed.

Lemma getInterval_monotone_witness :
  getInterval (0, 999999999) ≤ getInterval (1, 0).
Proof. apply getInterval_monotone. lia. Defined.

(** ** Timing off, timing on *)

Section TimingFlag.
Context `{NodeApi}.
Implicit Types (o : ServiceClientRequestOptions) (st : State) (ev : Event).

Lemma step_timing_off o st ev :
  timing o = false →
  store st = ∅ ∧ lookupListener st = false ∧
  published_timings (promise st) = None ∧
  published_phases (promise st) = None →
  store (step o st ev) = ∅ ∧ lookupListener (step o st ev) = false ∧
  published_timings (promise (step o st ev)) = None ∧
  published_phases (promise (step o st ev)) = None.
Proof.
  intros Ht (Hs & Hl & Hpt & Hpp).
  destruct ev; listener_cases;
    repeat match goal with
           | Hp : promise _ = _ |- _ => rewrite Hp in *
           end; simpl in *; done.
Qed.

(** The step that settles the promise publishes the phases of the record
    as the step leaves it, and a reference to the record. *)
Lemma step_settles_with_snapshot o st ev :
  timing o = true →
  is_Some (store st !! timings_loc) →
  promise st = Pending →
  promise (step o st ev) ≠ Pending →
  ∃ t, store (step o st ev) !! timings_loc = Some t ∧
       published_timings (promise (step o st ev)) = Some timings_loc ∧
       published_phases (promise (step o st ev)) = Some (makeTimingPhases t).
Proof.
  intros Ht [t Hst] Hp Hp'. revert Hp'.
  destruct ev; timed_cases; intros; try done; eauto.
Qed.

End TimingFlag.

(** With timing off nothing is measured: no [Timings] object exists, the
    ["lookup"] listener is never registered, a [ServiceClientResponse]
    carries neither [timings] nor [timingPhases], and a fault is the
    [Error] itself, not an [ErrorWithTimings]. *)
Theorem timing_off_publishes_no_timings `{NodeApi}
    (o : ServiceClientRequestOptions) (tr : list Event) :
  timing o = false →
  store (run o tr) = ∅ ∧
  lookupListener (run o tr) = false ∧
  published_timings (promise (run o tr)) = None ∧
  published_phases (promise (run o tr)) = None ∧
  ∀ e, promise (run o tr) = Rejected e → e = Error (message e).
Proof.
  intros Ht.
  assert (Hinv : store (run o tr) = ∅ ∧ lookupListener (run o tr) = false ∧
                 published_timings (promise (run o tr)) = None ∧
                 published_phases (promise (run o tr)) = None).
  { induction tr as [|ev tr IH] using rev_ind.
    - unfold run, request. simpl. by rewrite Ht.
    - rewrite run_snoc. by apply step_timing_off. }
  destruct Hinv as (Hs & Hl & Hpt & Hpp). split_and!; try done.
  intros e He. rewrite He in Hpt. by destruct e.
Qed.

Lemma timing_off_publishes_no_timings_witness :
  published_phases
    (promise (@run reference_api
                (mkOptions None None None None None false None None None)
                [EvSocket false (ms 10); EvResponse None (Some 200) (ms 30);
                 EvEnd 0 (ms 60)]))
  = None.
Proof.
  exact (proj1 (proj2 (proj2 (proj2
    (@timing_off_publishes_no_timings reference_api
       (mkOptions None None None None None false None None None)
       [EvSocket false (ms 10); EvResponse None (Some 200) (ms 30);
        EvEnd 0 (ms 60)]
       eq_refl))))).
Defined.

(** With timing on, what settles the promise is either an error that a
    transport call of the executor threw, which reaches the promise as it
    is, without timings; or a listener, and then the settled value carries a
    reference to the [Timings] object of the execution and the phases of
    that record as it stood right after the settling event: the trace splits
    at the event before which the promise was pending and after which it
    holds, for good, the value that it holds at the end. *)
Theorem timing_on_publishes_snapshot `{NodeApi}
    (o : ServiceClientRequestOptions) (tr : list Event)
    (thrown : option string) :
  timing o = true →
  returned_promise thrown o tr ≠ Pending →
  (∃ msg, thrown = Some msg ∧
          returned_promise thrown o tr = Rejected (Error msg) ∧
          published_timings (returned_promise thrown o tr) = None ∧
          published_phases (returned_promise thrown o tr) = None) ∨
  (thrown = None ∧
   ∃ before ev after t,
     tr = before ++ ev :: after ∧
     promise (run o before) = Pending ∧
     promise (run o (before ++ [ev])) ≠ Pending ∧
     promise (run o (before ++ [ev])) = promise (run o tr) ∧
     store (run o (before ++ [ev])) !! timings_loc = Some t ∧
     published_timings (promise (run o tr)) = Some timings_loc ∧
     published_phases (promise (run o tr)) = Some (makeTimingPhases t)).
Proof.
  intros Ht. destruct thrown as [msg|]; simpl.
  { intros _. left. by exists msg. }
  intros Hsettled. right. split; [done|]. revert Hsettled.
  induction tr as [|ev tr IH] using rev_ind; [done|].
  intros Hsettled.
  assert (Hcase : promise (run o tr) = Pending ∨ promise (run o tr) ≠ Pending)
    by (destruct (promise (run o tr)); eauto).
  destruct Hcase as [Hp | Hp].
  - pose proof Hsettled as Hsettled'. rewrite run_snoc in Hsettled'.
    destruct (step_settles_with_snapshot (resolve_options o) (run o tr) ev Ht
                (run_allocated o tr Ht) Hp Hsettled') as (t & Hst & Hpt & Hpp).
    exists tr, ev, [], t. rewrite run_snoc. by split_and!.
  - destruct (IH Hp)
      as (before & ev' & after & t & Heq & Hb & Hne & Hsame' & Hst & Hpt & Hpp).
    assert (Hsame : promise (run o (tr ++ [ev])) = promise (run o tr))
      by (rewrite run_snoc; by apply step_settled).
    exists before, ev', (after ++ [ev]), t. rewrite Hsame.
    split_and!; try done. rewrite Heq. by rewrite <- app_assoc.
Qed.

(** A read timeout, and the response headers that arrive after it: the
    phases of the fault are those of the record at the timeout. *)
Lemma timing_on_publishes_snapshot_witness :
  ∃ t,
    published_phases
      (promise (@run reference_api
                  (mkOptions None (Some "c.com") None None None true None None None)
                  [EvSocket false (ms 10); EvRequestTimeout;
                   EvResponse None (Some 200) (ms 100)]))
    = Some (makeTimingPhases t).
Proof.
  assert (Hsettled :
            returned_promise (H := reference_api) None
              (mkOptions None (Some "c.com") None None None true None None None)
              [EvSocket false (ms 10); EvRequestTimeout;
               EvResponse None (Some 200) (ms 100)]
            ≠ Pending) by (vm_compute; discriminate).
  pose proof (timing_on_publishes_snapshot
                (mkOptions None (Some "c.com") None None None true None None None)
                _ _ eq_refl Hsettled) as Hsnapshot.
  destruct Hsnapshot
    as [(msg & Hthrown & _)
       | (_ & before & ev & after & t & _ & _ & _ & _ & _ & _ & Hpp)].
  - discriminate Hthrown.
  - exists t. exact Hpp.
Defined.

(** ** The two timers *)

Section Timers.
Context `{NodeApi}.
Implicit Types (o : ServiceClientRequestOptions) (st : State) (ev : Event).

Lemma step_destroy_budget o st ev :
  (destroy_budget (step o st ev) ≤ destroy_budget st)%nat.
Proof.
  unfold destroy_budget.
  destruct ev; listener_cases; repeat case_match; simpl in *; lia.
Qed.

Lemma step_destroyed_count o st ev :
  (destroyed (step o st ev)
   ≤ destroyed st + (if is_timeout_event ev then 1 else 0))%nat.
Proof. destruct ev; listener_cases; lia. Qed.

(** Without a connecting socket, nothing is registered on the socket. *)
Lemma step_no_connecting_socket o st ev :
  (∀ now, ev ≠ EvSocket true now) →
  connectionTimeoutListener st = false ∧ socketTimeout st = None ∧
  lookupListener st = false ∧ connectListener st = false →
  connectionTimeoutListener (step o st ev) = false ∧
  socketTimeout (step o st ev) = None ∧
  lookupListener (step o st ev) = false ∧
  connectListener (step o st ev) = false.
Proof.
  intros Hev (Hc & Hs & Hl & Hcn).
  destruct ev as [[] n| | | | | | | | |]; try (by destruct (Hev n));
    listener_cases.
Qed.

(** Before the socket is reused or connected, the read timeout is not
    armed. *)
Lemma step_read_timeout_unarmed o st ev :
  (∀ now, ev ≠ EvSocket false now) → (∀ now, ev ≠ EvConnect now) →
  readTimeoutListener st = false ∧ requestTimeout st = None →
  readTimeoutListener (step o st ev) = false ∧
  requestTimeout (step o st ev) = None.
Proof.
  intros Hsock Hconn [Hr Ht].
  destruct ev as [[] n|n|n| | | | | | |];
    try (by destruct (Hsock n)); try (by destruct (Hconn n));
    listener_cases.
Qed.

Lemma step_timer_durations o st ev :
  (∀ d, socketTimeout st = Some d → d = connectionTimeout o) ∧
  (∀ d, requestTimeout st = Some d → d = readTimeout_ms o) →
  (∀ d, socketTimeout (step o st ev) = Some d → d = connectionTimeout o) ∧
  (∀ d, requestTimeout (step o st ev) = Some d → d = readTimeout_ms o).
Proof.
  intros [Hs Hr].
  destruct ev; listener_cases; split; intros d Hd; simplify_eq; eauto.
Qed.

Lemma number_or_nonzero (x : option Z) (d : Z) : d ≠ 0 → number_or x d ≠ 0.
Proof.
  intros Hd. unfold number_or. destruct x as [n|]; [|done].
  destruct (Z.eqb_spec n 0); done.
Qed.

End Timers.

(** The socket is destroyed by the two timeout callbacks and by nothing
    else, and each of them runs at most once: in any execution [destroy()]
    is called at most twice, and at most as often as a ["timeout"] event
    arrived. *)
Theorem destroy_calls_bounded `{NodeApi}
    (o : ServiceClientRequestOptions) (tr : list Event) :
  (destroyed (run o tr) ≤ 2)%nat ∧
  (destroyed (run o tr) ≤ timeout_events tr)%nat.
Proof.
  split.
  - assert (Hb : (destroy_budget (run o tr) ≤ 2)%nat).
    { induction tr as [|ev tr IH] using rev_ind; [done|].
      rewrite run_snoc.
      etrans; [apply step_destroy_budget|done]. }
    unfold destroy_budget in Hb. lia.
  - induction tr as [|ev tr IH] using rev_ind; [done|].
    rewrite run_snoc. unfold timeout_events in *.
    rewrite List.filter_app, length_app. simpl.
    pose proof (step_destroyed_count (resolve_options o) (run o tr) ev) as Hs.
    destruct (is_timeout_event ev); simpl in *; lia.
Qed.

(** When the socket that the request is given is not connecting, the
    connection timer is never armed and no listener is put on the socket:
    a ["timeout"], ["lookup"] or ["connect"] event of the socket changes
    nothing, so that a reused socket cannot produce a connection-timeout
    fault. *)
Theorem reused_socket_has_no_connection_timer `{NodeApi}
    (o : ServiceClientRequestOptions) (tr : list Event) (now : hrtime) :
  Forall (λ ev, ∀ n, ev ≠ EvSocket true n) tr →
  socketTimeout (run o tr) = None ∧
  run o (tr ++ [EvSocketTimeout]) = run o tr ∧
  run o (tr ++ [EvLookup now]) = run o tr ∧
  run o (tr ++ [EvConnect now]) = run o tr.
Proof.
  intros Htr.
  assert (Hinv : connectionTimeoutListener (run o tr) = false ∧
                 socketTimeout (run o tr) = None ∧
                 lookupListener (run o tr) = false ∧
                 connectListener (run o tr) = false).
  { induction tr as [|ev tr IH] using rev_ind; [done|].
    rewrite Forall_app, Forall_singleton in Htr. destruct Htr as [Htr Hev].
    rewrite run_snoc. apply step_no_connecting_socket; [done|by apply IH]. }
  destruct Hinv as (Hc & Hs & Hl & Hcn).
  rewrite !run_snoc. simpl. by rewrite Hc, Hl, Hcn.
Qed.

Lemma reused_socket_has_no_connection_timer_witness :
  @run reference_api
    (mkOptions None None None None None true None None None)
    ([EvSocket false (ms 10)] ++ [EvSocketTimeout])
  = @run reference_api
      (mkOptions None None None None None true None None None)
      [EvSocket false (ms 10)].
Proof.
  apply (@reused_socket_has_no_connection_timer reference_api
           (mkOptions None None None None None true None None None)
           [EvSocket false (ms 10)] (ms 0)).
  repeat constructor; discriminate.
Defined.

(** The read timer is armed by the ["socket"] event of a socket that is not
    connecting and by the ["connect"] event, and by nothing else: as long
    as neither has arrived, [requestObject.setTimeout] has not been called
    and a ["timeout"] event of the request changes nothing. *)
Theorem read_timer_waits_for_usable_socket `{NodeApi}
    (o : ServiceClientRequestOptions) (tr : list Event) :
  Forall (λ ev, (∀ n, ev ≠ EvSocket false n) ∧ (∀ n, ev ≠ EvConnect n)) tr →
  requestTimeout (run o tr) = None ∧
  run o (tr ++ [EvRequestTimeout]) = run o tr.
Proof.
  intros Htr.
  assert (Hinv : readTimeoutListener (run o tr) = false ∧
                 requestTimeout (run o tr) = None).
  { induction tr as [|ev tr IH] using rev_ind; [done|].
    rewrite Forall_app, Forall_singleton in Htr. destruct Htr as [Htr [? ?]].
    rewrite run_snoc. apply step_read_timeout_unarmed; [done..|by apply IH]. }
  destruct Hinv as [Hr Ht]. rewrite run_snoc. simpl. by rewrite Hr.
Qed.

Lemma read_timer_waits_for_usable_socket_witness :
  @run reference_api
    (mkOptions None None None None None true None None None)
    ([EvSocket true (ms 10); EvLookup (ms 20)] ++ [EvRequestTimeout])
  = @run reference_api
      (mkOptions None None None None None true None None None)
      [EvSocket true (ms 10); EvLookup (ms 20)].
Proof.
  apply (@read_timer_waits_for_usable_socket reference_api
           (mkOptions None None None None None true None None None)
           [EvSocket true (ms 10); EvLookup (ms 20)]).
  repeat constructor; discriminate.
Defined.

(** A timer is only ever armed with the configured duration, where a
    duration that is absent or [0] stands for the default (1000 ms to
    connect, 2000 ms to read); in particular never with [0], which would
    switch the timeout off. *)
Theorem timer_durations `{NodeApi}
    (o : ServiceClientRequestOptions) (tr : list Event) (d : Z) :
  (socketTimeout (run o tr) = Some d →
   d ≠ 0 ∧
   (∀ t, timeout o = Some t → t ≠ 0 → d = t) ∧
   (timeout o = None ∨ timeout o = Some 0 → d = 1000)) ∧
  (requestTimeout (run o tr) = Some d →
   d ≠ 0 ∧
   (∀ t, readTimeout o = Some t → t ≠ 0 → d = t) ∧
   (readTimeout o = None ∨ readTimeout o = Some 0 → d = 2000)).
Proof.
  assert (Hinv : (∀ d, socketTimeout (run o tr) = Some d
                       → d = number_or (timeout o) 1000) ∧
                 (∀ d, requestTimeout (run o tr) = Some d
                       → d = number_or (readTimeout o) 2000)).
  { induction tr as [|ev tr IH] using rev_ind; [done|].
    rewrite run_snoc.
    exact (step_timer_durations (resolve_options o) _ ev IH). }
  destruct Hinv as [Hs Hr].
  split; intros Hd; [apply Hs in Hd | apply Hr in Hd]; subst d;
    (split_and!; [by apply number_or_nonzero| |]).
  - intros t -> Ht. simpl. by destruct (Z.eqb_spec t 0).
  - by intros [-> | ->].
  - intros t -> Ht. simpl. by destruct (Z.eqb_spec t 0).
  - by intros [-> | ->].
Qed.

(** [timeout: 0] arms the connection timer with the default. *)
Lemma timer_durations_witness :
  socketTimeout (@run reference_api
                   (mkOptions None None None None None false None (Some 0) None)
                   [EvSocket true (ms 1)])
  = Some 1000 ∧ (1000 : Z) ≠ 0.
Proof.
  split; [reflexivity|].
  exact (proj1 (proj1 (@timer_durations reference_api
           (mkOptions None None None None None false None (Some 0) None)
           [EvSocket true (ms 1)] 1000) eq_refl)).
Defined.

(** ** The body aggregator *)

(** Lookups at the position of an update of the list of closures. *)
Ltac insert_lookups :=
  repeat match goal with
  | Hx : <[?i:=_]> _ !! ?i = Some _ |- _ =>
      rewrite list_lookup_insert_eq in Hx
        by (rewrite ?length_insert; eauto using lookup_lt_Some)
  | Hx : <[?i:=_]> _ !! ?i = None, Hi : _ !! ?i = Some _ |- _ =>
      exfalso; apply lookup_ge_None in Hx; apply lookup_lt_Some in Hi;
      rewrite ?length_insert in Hx; lia
  end.

Ltac closure_cases :=
  unfold_listeners; simpl in *;
  repeat (case_match; simpl in *; insert_lookups; simplify_eq; try done).

Section Aggregator.
Context `{NodeApi}.
Implicit Types (o : ServiceClientRequestOptions) (st : State) (ev : Event).
Implicit Types (rc : ResponseCtx).

(** Where the closures of a state come from: a closure is the fresh one of
    a ["response"] event, or it was there before, with the same headers,
    status code and choice of stream. *)
Lemma step_responses_origin o st ev i rc' :
  responses (step o st ev) !! i = Some rc' →
  (∃ rc, responses st !! i = Some rc ∧
         rc_headers rc' = rc_headers rc ∧
         rc_statusCode rc' = rc_statusCode rc ∧
         rc_piped rc' = rc_piped rc) ∨
  (∃ h s n, ev = EvResponse h s n ∧ rc' = new_response h s).
Proof.
  destruct ev as [| | | | | |h s n|j chunk|j n|j m].
  1-6, 10: (listener_cases; intros; left; eauto).
  - destruct (on_response_effect o st h s n) as [-> _].
    rewrite lookup_app_Some. intros [Hi | [_ Hi]].
    + left. eauto.
    + right. apply list_lookup_singleton_Some in Hi as [_ <-]. eauto.
  - intros Hi. left. revert Hi.
    listener_cases; rewrite ?list_lookup_insert_Some;
      intros; destruct_and?; destruct_or?; destruct_and?; simplify_eq;
      eauto.
  - intros Hi. left. revert Hi.
    closure_cases;
      rewrite ?list_insert_insert_eq;
      rewrite ?list_lookup_insert_Some;
      intros; destruct_and?; destruct_or?; destruct_and?; simplify_eq;
      eauto.
Qed.

(** The promise is fulfilled by the end of a response, and by nothing
    else. *)
Lemma step_fulfils o st ev r :
  promise st = Pending →
  promise (step o st ev) = Fulfilled r →
  ∃ i n rc,
    ev = EvEnd i n ∧ responses st !! i = Some rc ∧
    ServiceClientResponse.statusCode r = number_or (rc_statusCode rc) 0 ∧
    ServiceClientResponse.headers r = rc_headers rc ∧
    ServiceClientResponse.request r = o.
Proof.
  intros Hp.
  destruct ev as [| | | | | |h s n|j chunk|j n|j m].
  1-8, 10: by (listener_cases; rewrite ?Hp).
  listener_cases; rewrite ?Hp; try done;
    rewrite ?list_lookup_insert_eq in *
      by (rewrite ?length_insert; by eapply lookup_lt_Some);
    simplify_eq; simpl;
    intros [= <-]; eexists _, _, _; split_and!; try done.
Qed.

(** The byte counter of a closure is the total length of its chunks. *)
Lemma step_bufferLength o st ev :
  Forall (λ rc, rc_bufferLength rc = length (concat (rc_chunks rc)))
    (responses st) →
  Forall (λ rc, rc_bufferLength rc = length (concat (rc_chunks rc)))
    (responses (step o st ev)).
Proof.
  intros Hall.
  assert (Hrc : ∀ i rc, responses st !! i = Some rc →
                        rc_bufferLength rc = length (concat (rc_chunks rc)))
    by (intros i rc Hi; exact (Forall_lookup_1 _ _ _ _ Hall Hi)).
  destruct ev as [| | | | | |h s n|j chunk|j n|j m].
  1-6, 10: by listener_cases.
  - destruct (on_response_effect o st h s n) as [-> _].
    apply Forall_app. split; [done|]. by apply Forall_singleton.
  - listener_cases; apply Forall_insert; try done; simpl;
      rewrite ?concat_app, ?length_app; simpl; rewrite ?app_nil_r;
      erewrite ?Hrc by done; done.
  - closure_cases; rewrite ?list_insert_insert_eq;
      try (apply Forall_insert; try done; simpl; by eapply Hrc).
Qed.

End Aggregator.

(** In every closure of every reachable state, [bufferLength] is the total
    length of [chunks]; so [Buffer.concat(chunks, bufferLength)] is the
    plain concatenation: it never truncates and never pads with zeros. *)
Theorem bufferLength_is_total_length `{NodeApi}
    (o : ServiceClientRequestOptions) (tr : list Event)
    (i : nat) (rc : ResponseCtx) :
  responses (run o tr) !! i = Some rc →
  rc_bufferLength rc = length (concat (rc_chunks rc)) ∧
  Buffer_concat (rc_chunks rc) (rc_bufferLength rc) = concat (rc_chunks rc).
Proof.
  assert (Hall : Forall (λ rc, rc_bufferLength rc = length (concat (rc_chunks rc)))
                   (responses (run o tr))).
  { induction tr as [|ev tr IH] using rev_ind; [constructor|].
    rewrite run_snoc. by apply step_bufferLength. }
  intros Hi.
  pose proof (Forall_lookup_1 _ _ _ _ Hall Hi) as Hlen. simpl in Hlen.
  split; [done|]. rewrite Hlen. apply Buffer_concat_exact.
Qed.

Lemma bufferLength_is_total_length_witness :
  Buffer_concat [[x66; x6f]; [x6f]] 3 = [x66; x6f; x6f].
Proof.
  exact (proj2 (@bufferLength_is_total_length reference_api
           (mkOptions None None None None None false None None None)
           [EvResponse None None (ms 0); EvData 0 [x66; x6f]; EvData 0 [x6f]]
           0%nat
           (mkResponseCtx None None false [] true [[x66; x6f]; [x6f]] 3)
           eq_refl)).
Defined.

(** A fulfilled promise holds a value that was built at the end of a
    response: its [request] is the resolved options, its headers are those
    of a ["response"] event of the trace and its status code is the status
    code of that event, or [0] when that is absent or [0]; and the trace
    contains the end of a response. *)
Theorem fulfilled_value_provenance `{NodeApi}
    (o : ServiceClientRequestOptions) (tr : list Event)
    (r : ServiceClientResponse.t) :
  promise (run o tr) = Fulfilled r →
  ServiceClientResponse.request r = resolve_options o ∧
  ∃ h s n i n',
    EvResponse h s n ∈ tr ∧ EvEnd i n' ∈ tr ∧
    ServiceClientResponse.headers r = h ∧
    ServiceClientResponse.statusCode r = number_or s 0.
Proof.
  assert (Hctx : ∀ tr i rc, responses (run o tr) !! i = Some rc →
                   ∃ n, EvResponse (rc_headers rc) (rc_statusCode rc) n ∈ tr).
  { clear tr. intros tr. induction tr as [|ev tr IH] using rev_ind; [done|].
    intros i rc'. rewrite run_snoc. intros Hi.
    apply step_responses_origin in Hi
      as [(rc & Hrc & -> & -> & _) | (h & s & n & -> & ->)].
    - destruct (IH _ _ Hrc) as [n Hn]. exists n. apply elem_of_app. by left.
    - exists n. apply elem_of_app. right. by apply list_elem_of_singleton. }
  revert r. induction tr as [|ev tr IH] using rev_ind; intros r Hr; [done|].
  rewrite run_snoc in Hr.
  destruct (promise (run o tr)) as [|r'|e'] eqn:Hp.
  - destruct (step_fulfils _ _ _ _ Hp Hr) as (i & n' & rc & -> & Hrc & Hs & Hh & Hq).
    split; [done|]. destruct (Hctx _ _ _ Hrc) as [n Hn].
    exists (rc_headers rc), (rc_statusCode rc), n, i, n'.
    split_and!; try done; apply elem_of_app; [by left|].
    right. by apply list_elem_of_singleton.
  - rewrite step_settled in Hr by (rewrite Hp; done). rewrite Hp in Hr.
    injection Hr as <-.
    destruct (IH r' eq_refl) as (Hq & h & s & n & i & n' & Hin & Hend & Hh & Hs).
    split; [done|]. exists h, s, n, i, n'.
    split_and!; try done; apply elem_of_app; by left.
  - rewrite step_settled in Hr by (rewrite Hp; done). congruence.
Qed.

(** The test "should attach the request options to the response". *)
Lemma fulfilled_value_provenance_witness :
  ∃ r,
    promise (@run reference_api
               (mkOptions None None None (Some "/foo") None false None None None)
               [EvResponse None (Some 204) (ms 0); EvEnd 0 (ms 1)])
      = Fulfilled r ∧
    ServiceClientResponse.request r
      = mkOptions (Some "https:") None (Some "/foo") (Some "/foo") None false
          None None None.
Proof.
  eexists. split; [reflexivity|].
  exact (proj1 (@fulfilled_value_provenance reference_api
           (mkOptions None None None (Some "/foo") None false None None None)
           [EvResponse None (Some 204) (ms 0); EvEnd 0 (ms 1)] _ eq_refl)).
Defined.

(** ** Faults *)

Section Faults.
Context `{NodeApi}.
Implicit Types (o : ServiceClientRequestOptions) (st : State) (ev : Event).
Implicit Types (rc : ResponseCtx) (i : nat).







End Faults.



(** ** Complete and ordered timings *)

Section CompleteTimings.
Context `{NodeApi}.
Implicit Types (o : ServiceClientRequestOptions) (st : State) (ev : Event).

(** Without a ["response"] event there is no closure and no success. *)
Lemma step_no_response o st ev :
  is_response_event ev = false →
  responses st = [] ∧ (∀ r, promise st ≠ Fulfilled r) →
  responses (step o st ev) = [] ∧ (∀ r, promise (step o st ev) ≠ Fulfilled r).
Proof.
  intros Hev [Hrs Hp]. destruct ev; simpl in Hev; try done;
    unfold_listeners; simpl; rewrite ?Hrs; simpl;
    repeat (case_match; simpl in *; simplify_eq; try done);
    split; try done; intros r Hr; try (by eapply Hp); congruence.
Qed.

Lemma steps_no_response o st tr :
  Forall (λ ev, is_response_event ev = false) tr →
  responses st = [] ∧ (∀ r, promise st ≠ Fulfilled r) →
  responses (steps o st tr) = [] ∧ (∀ r, promise (steps o st tr) ≠ Fulfilled r).
Proof.
  intros Htr. revert st. induction Htr as [|ev tr Hev _ IH]; intros st Hst; [done|].
  rewrite steps_cons. apply IH. by apply step_no_response.
Qed.

Lemma step_socket_first o st ev :
  timing o = true → socket_first st → socket_first (step o st ev).
Proof.
  unfold socket_first, phases_complete.
  intros Ht (t & Hst & [s Hs] & Hresp & Hful).
  destruct t as [tl ts tc tr te]; simpl in *; subst.
  destruct ev as [| | | | | |h s' n|j chunk|j n|j m].
  1-6, 10:
    (timed_cases; eexists; (split; [store_lookups; simpl; reflexivity|]);
     simpl; (split; [eauto|]);
     (split; [try done; intros Hlen; destruct (Hresp Hlen) as (?&?&?);
              split_and!; eauto|]);
     try done; intros r0 Hr0; apply Hful; congruence).
  - unfold step, on_response, write_timings. rewrite Ht. simpl.
    rewrite !lookup_alter_eq, Hst. simpl.
    eexists; split; [reflexivity|].
    destruct tl, tc; simpl; split_and!; eauto.
  - closure_cases; rewrite ?length_insert;
      eexists; (split; [done|]); simpl; split_and!; eauto.
  - destruct (responses st !! j) as [rc|] eqn:Hj.
    2: { simpl. rewrite Hj. eexists; split; [done|]. simpl. eauto. }
    destruct Hresp as ([l ->] & [c ->] & [r' ->]);
      [by eapply Nat.le_lt_trans; [apply Nat.le_0_l|eapply lookup_lt_Some]|].
    closure_cases; store_lookups; simpl in *; simplify_eq;
      rewrite ?list_insert_insert_eq, ?length_insert;
      eexists; (split; [store_lookups; simpl; reflexivity|]);
      simpl; (split; [eauto|]); (split; [eauto|]);
      intros r0 Hr0; simplify_eq; simpl;
      try (by apply Hful; congruence);
      eexists; (split; [reflexivity|]); simpl; split_and!; eauto.
Qed.

Lemma steps_socket_first o st tr :
  timing o = true → socket_first st → socket_first (steps o st tr).
Proof.
  intros Ht. revert st. induction tr as [|ev tr IH]; intros st Hst; [done|].
  rewrite steps_cons. apply IH. by apply step_socket_first.
Qed.

End CompleteTimings.

(** With timing on, when the socket is assigned before any response
    arrives, a fulfilled promise exposes complete timing phases: all six of
    [wait], [dns], [tcp], [firstByte], [download] and [total] are defined,
    whether or not the socket ever emitted ["lookup"] or ["connect"]. *)
Theorem success_has_complete_phases `{NodeApi}
    (o : ServiceClientRequestOptions) (pre post : list Event)
    (connecting : bool) (now : hrtime) (r : ServiceClientResponse.t) :
  timing o = true →
  Forall (λ ev, is_socket_event ev = false ∧ is_response_event ev = false) pre →
  promise (run o (pre ++ EvSocket connecting now :: post)) = Fulfilled r →
  ∃ ph, ServiceClientResponse.timingPhases r = Some ph ∧ phases_complete ph.
Proof.
  intros Ht Hpre Hr.
  apply Forall_and in Hpre as [Hsock Hresp].
  assert (Hlisten : socketListener (run o pre) = true)
    by (by apply steps_socketListener).
  destruct (steps_no_response (resolve_options o) (request o) pre Hresp)
    as [Hnone Hnot]; [done|].
  destruct (run_allocated o pre Ht) as [t Hst].
  assert (Hfirst : socket_first
                     (step (resolve_options o) (run o pre) (EvSocket connecting now))).
  { unfold socket_first, step. rewrite Hlisten.
    fold (run o pre) in Hnone, Hnot.
    unfold on_socket, setReadTimeout, write_timings. simpl. rewrite Ht. simpl.
    destruct connecting; simpl; rewrite ?lookup_alter_eq, Hst; simpl;
      (eexists; split; [reflexivity|]); rewrite Hnone; simpl;
      (split_and!; [eauto|lia|]); intros r' Hr'; by destruct (Hnot r'). }
  rewrite run_app, steps_cons in Hr.
  destruct (steps_socket_first (resolve_options o) _ post Ht Hfirst)
    as (_ & _ & _ & _ & Hful).
  by apply Hful.
Qed.

(** A transport that emits neither ["lookup"] nor ["connect"]. *)
Lemma success_has_complete_phases_witness :
  ∃ ph,
    published_phases
      (promise (@run reference_api
                  (mkOptions None None None None None true None None None)
                  ([] ++ EvSocket true (ms 10)
                      :: [EvResponse None (Some 200) (ms 40); EvEnd 0 (ms 90)])))
      = Some ph ∧
    phases_complete ph.
Proof.
  exact (@success_has_complete_phases reference_api
           (mkOptions None None None None None true None None None)
           [] [EvResponse None (Some 200) (ms 40); EvEnd 0 (ms 90)]
           true (ms 10) _ eq_refl (List.Forall_nil _) eq_refl).
Defined.

(** ** Ordered timings *)

Section OrderedTimings.
Context `{NodeApi}.
Implicit Types (o : ServiceClientRequestOptions) (st : State) (ev : Event).

Ltac use_checkpoints :=
  repeat match goal with
         | Hx : ∀ v, ?x = Some v → _, Hv : ?x = Some _ |- _ =>
             specialize (Hx _ Hv)
         | Hx : ∀ v, Some ?x = Some v → _ |- _ => specialize (Hx _ eq_refl)
         | Hx : ∃ s, _ ∧ _ |- _ => destruct Hx as (? & ? & ?)
         | Hx : _ ∧ _ |- _ => destruct Hx
         | Hx : true = true → _ |- _ => specialize (Hx eq_refl)
         | Hx : ?p = true → _, Hp : ?p = true |- _ => specialize (Hx Hp)
         | Hx : is_Some None |- _ => by destruct Hx
         | Hx : is_Some (Some _) |- _ => clear Hx
         | Hx : is_Some ?x |- _ => destruct Hx as [? ->]
         end.

(** What a step does to the recorded checkpoints when the clock reads [n],
    not less than the bound [b] on what was recorded before. *)
Lemma step_checkpoints_store o b n st ev :
  timing o = true →
  is_Some (store st !! timings_loc) →
  checkpoints_before b st →
  0 ≤ b ≤ n →
  (∀ m, event_clock ev = Some m → m = n) →
  ∀ t, store (step o st ev) !! timings_loc = Some t →
        (∀ v, Timings.socket t = Some v → 0 ≤ v ≤ n) ∧
        (∀ v, Timings.lookup t = Some v →
              v ≤ n ∧ ∃ s, Timings.socket t = Some s ∧ s ≤ v) ∧
        (∀ v, Timings.connect t = Some v → v ≤ n) ∧
        (∀ v, Timings.response t = Some v → v ≤ n) ∧
        (∀ v, Timings.end_ t = Some v → v ≤ n) ∧
        (socketListener (step o st ev) = true →
         Timings.socket t = None ∧ Timings.lookup t = None) ∧
        (lookupListener (step o st ev) = true → is_Some (Timings.socket t)).
Proof.
  intros Ht [t Hst] [Hcp Hph] Hbn Hclock.
  specialize (Hcp _ Hst).
  destruct t as [tl ts tc tr te]; simpl in *;
    destruct Hcp as (H1 & H2 & H3 & H4 & H5 & _ & H7 & H8).
  clear Hph.
  destruct ev as [c m|m|m| | |msg|h s m|j chunk|j m|j msg]; simpl in Hclock;
    try (specialize (Hclock _ eq_refl); subst n).
  all: timed_cases.
  all: intros t' Ht'; store_lookups; simpl in *; simplify_eq; simpl.
  all: split_and!; try done; intros; simplify_eq; use_checkpoints;
         simplify_eq; try done; try lia; eauto with lia.
Qed.

(** The phases of a record whose [end] is absent, or is the latest
    checkpoint, are ordered. *)
Lemma phases_of_bounded_checkpoints (t : Timings.t) (n : Z) :
  (∀ v, Timings.socket t = Some v → 0 ≤ v ≤ n) →
  (∀ v, Timings.lookup t = Some v →
        v ≤ n ∧ ∃ s, Timings.socket t = Some s ∧ s ≤ v) →
  (∀ v, Timings.response t = Some v → v ≤ n) →
  Timings.end_ t = None ∨ Timings.end_ t = Some n →
  phases_ordered (makeTimingPhases t).
Proof.
  destruct t as [tl ts tc tr te]. unfold phases_ordered, makeTimingPhases, subtract.
  simpl. intros Hs Hl Hr He.
  split_and!.
  - intros w ->. by destruct (Hs _ eq_refl).
  - intros d Hd. destruct tl as [l|], ts as [s|]; simplify_eq.
    destruct (Hl _ eq_refl) as (_ & s' & [= <-] & Hle). lia.
  - intros d Hd. destruct te as [e|], tr as [r|]; simplify_eq.
    destruct He as [|[= ->]]; [done|]. specialize (Hr _ eq_refl). lia.
  - intros w e -> ->. destruct He as [|[= ->]]; [done|].
    by destruct (Hs _ eq_refl).
Qed.

Lemma step_end_is_now o st ev t0 t :
  timing o = true →
  promise st = Pending →
  store st !! timings_loc = Some t0 → Timings.end_ t0 = None →
  store (step o st ev) !! timings_loc = Some t →
  Timings.end_ t = None ∨
  ∃ n, event_clock ev = Some n ∧ Timings.end_ t = Some n.
Proof.
  intros Ht Hp Hst Hend. destruct t0 as [tl ts tc tr te]. simpl in Hend. subst te.
  destruct ev; timed_cases; intros; simplify_eq; simpl; eauto.
Qed.

Lemma step_checkpoints o b n st ev :
  timing o = true →
  is_Some (store st !! timings_loc) →
  checkpoints_before b st →
  0 ≤ b ≤ n →
  (∀ m, event_clock ev = Some m → m = n) →
  checkpoints_before n (step o st ev).
Proof.
  intros Ht Hst Hinv Hbn Hclock.
  pose proof (step_checkpoints_store o b n st ev Ht Hst Hinv Hbn Hclock) as Hstore.
  destruct Hinv as [Hcp Hph].
  assert (Hend : promise st = Pending →
                 ∀ t0, store st !! timings_loc = Some t0 → Timings.end_ t0 = None).
  { intros Hp t0 Ht0. by apply (Hcp t0 Ht0). }
  split.
  - intros t Ht'. destruct (Hstore t Ht') as (H1 & H2 & H3 & H4 & H5 & H7 & H8).
    split_and!; try done.
    intros Hp. revert t Ht' H1 H2 H3 H4 H5 H7 H8.
    pose proof (step_pending_no_end o st ev Hend Hp). eauto.
  - intros ph Hpub.
    destruct (promise st) eqn:Hp.
    + assert (Hsettled : promise (step o st ev) ≠ Pending)
        by (intros Hp'; by rewrite Hp' in Hpub).
      destruct (step_settles_with_snapshot o st ev Ht Hst Hp Hsettled)
        as (t & Ht' & _ & Hpp).
      rewrite Hpp in Hpub. injection Hpub as <-.
      destruct (Hstore t Ht') as (H1 & H2 & _ & H4 & _).
      apply (phases_of_bounded_checkpoints t n); try done.
      destruct Hst as [t0 Hst].
      destruct (step_end_is_now o st ev t0 t Ht Hp Hst (Hend eq_refl t0 Hst) Ht')
        as [He | (m & Hm & He)]; [by left|].
      right. rewrite He. f_equal. by apply Hclock.
    + apply Hph. rewrite <- Hp. rewrite <- Hpub.
      by rewrite step_settled by (by rewrite Hp).
    + apply Hph. rewrite <- Hp. rewrite <- Hpub.
      by rewrite step_settled by (by rewrite Hp).
Qed.

Lemma steps_checkpoints o b st tr :
  timing o = true →
  is_Some (store st !! timings_loc) →
  0 ≤ b →
  checkpoints_before b st →
  clock_monotone_from b tr →
  ∃ b', checkpoints_before b' (steps o st tr).
Proof.
  intros Ht. revert b st.
  induction tr as [|ev tr IH]; intros b st Hst Hb Hinv Hmono; [by exists b|].
  rewrite steps_cons. simpl in Hmono.
  destruct (event_clock ev) as [n|] eqn:Hev.
  - destruct Hmono as [Hbn Hmono].
    apply (IH n); [by apply step_allocated|lia| |done].
    apply (step_checkpoints o b n); try done; try lia.
    intros m Hm. rewrite Hev in Hm. by injection Hm.
  - apply (IH b); [by apply step_allocated|lia| |done].
    apply (step_checkpoints o b b); try done; try lia.
    intros m Hm. by rewrite Hev in Hm.
Qed.

End OrderedTimings.

(** With timing on and a clock that starts at zero and never runs
    backwards, the phases that a settled promise exposes are ordered:
    [wait], [dns] and [download] are not negative and [total] is not less
    than [wait], whenever they are defined and in whatever order the
    events arrived. *)
Theorem phases_are_ordered `{NodeApi}
    (o : ServiceClientRequestOptions) (tr : list Event) (ph : TimingPhases.t) :
  timing o = true →
  clock_monotone_from 0 tr →
  published_phases (promise (run o tr)) = Some ph →
  phases_ordered ph.
Proof.
  intros Ht Hmono Hpub.
  destruct (steps_checkpoints (resolve_options o) 0 (request o) tr Ht)
    as [b [_ Hph]]; try done.
  - unfold request. simpl. rewrite Ht. by rewrite lookup_singleton_eq.
  - split; [|done]. unfold request. simpl. rewrite Ht.
    intros t. rewrite lookup_singleton_eq. intros [= <-]. simpl.
    split_and!; done.
  - by apply Hph.
Qed.

(** The test "should record timings for non-keep-alive connection". *)
Lemma phases_are_ordered_witness :
  phases_ordered
    (TimingPhases.mk (Some 10) (Some 20) (Some 30) (Some 40) (Some 50) (Some 150)).
Proof.
  apply (@phases_are_ordered reference_api
           (mkOptions None None None None None true None None None)
           [EvSocket true (ms 10); EvLookup (ms 30); EvConnect (ms 60);
            EvResponse None None (ms 100); EvData 0 [x68]; EvEnd 0 (ms 150)]).
  - reflexivity.
  - vm_compute. repeat split; discriminate.
  - reflexivity.
Defined.

(** ** Transport errors *)

(** An error of the request leaves no promise pending: it rejects a pending
    promise with the message of the error (wrapped with the timings when
    timing is on) and changes nothing else; when the promise has settled
    already, it changes nothing at all.  Unlike the timeouts it does not
    destroy the socket. *)
Theorem request_error_settles `{NodeApi}
    (o : ServiceClientRequestOptions) (tr : list Event) (msg : string) :
  promise (run o (tr ++ [EvRequestError msg])) ≠ Pending ∧
  destroyed (run o (tr ++ [EvRequestError msg])) = destroyed (run o tr) ∧
  store (run o (tr ++ [EvRequestError msg])) = store (run o tr) ∧
  (promise (run o tr) = Pending →
   ∃ e, promise (run o (tr ++ [EvRequestError msg])) = Rejected e ∧
        message e = msg ∧
        run o (tr ++ [EvRequestError msg])
          = set_promise (Rejected e) (run o tr)) ∧
  (promise (run o tr) ≠ Pending →
   promise (run o (tr ++ [EvRequestError msg])) = promise (run o tr) ∧
   run o (tr ++ [EvRequestError msg]) = run o tr).
Proof.
  rewrite run_snoc. simpl. unfold reject, originalReject. simpl.
  destruct (timing o) eqn:Ht; simpl.
  - destruct (run_allocated o tr Ht) as [t Hst]. rewrite Hst.
    destruct (promise (run o tr)) eqn:Hp; simpl; rewrite ?Hp;
      split_and!; try done; intros _; by eexists.
  - destruct (promise (run o tr)) eqn:Hp; simpl; rewrite ?Hp;
      split_and!; try done; intros _; by eexists.
Qed.

(** The test "should reject a promise if request errors out". *)
Lemma request_error_settles_witness :
  ∃ e,
    promise (@run reference_api
               (mkOptions None None None None None true None None None)
               ([EvSocket true (ms 5)] ++ [EvRequestError "ECONNREFUSED"]))
      = Rejected e ∧
    message e = "ECONNREFUSED".
Proof.
  destruct (proj1 (proj2 (proj2 (proj2
    (@request_error_settles reference_api
       (mkOptions None None None None None true None None None)
       [EvSocket true (ms 5)] "ECONNREFUSED")))) eq_refl) as (e & He & Hm & _).
  exists e. by split.
Defined.

(** * Properties of the earlier revision *)

Ltac prior_unfold :=
  unfold PriorRequest.step, PriorRequest.unzip_end, PriorRequest.unzip_write,
    PriorRequest.on_end, PriorRequest.on_data, PriorRequest.on_response,
    PriorRequest.on_socket, PriorRequest.on_error_cleanup,
    PriorRequest.on_timeout, PriorRequest.on_drop_timer, PriorRequest.reject,
    PriorRequest.originalReject, PriorRequest.resolve,
    PriorRequest.write_timings in *.

Ltac prior_cases :=
  prior_unfold; simpl in *;
  repeat (case_match; simpl in *; simplify_eq; try done).

Section PriorBasics.
Context `{NodeApi} (enc : Text → Buffer).
Implicit Types (o : PriorRequest.Options) (st : PriorRequest.State).
Implicit Types (ev : PriorRequest.Event) (tr : list PriorRequest.Event).

Lemma prior_steps_app o st tr1 tr2 :
  PriorRequest.steps enc o (PriorRequest.steps enc o st tr1) tr2
    = PriorRequest.steps enc o st (tr1 ++ tr2).
Proof. unfold PriorRequest.steps. by rewrite foldl_app. Qed.

Lemma prior_steps_cons o st ev tr :
  PriorRequest.steps enc o st (ev :: tr)
    = PriorRequest.steps enc o (PriorRequest.step enc o st ev) tr.
Proof. reflexivity. Qed.

Lemma prior_run_app o tr1 tr2 :
  PriorRequest.run enc o (tr1 ++ tr2)
    = PriorRequest.steps enc (PriorRequest.resolve_options o)
        (PriorRequest.run enc o tr1) tr2.
Proof. unfold PriorRequest.run. by rewrite prior_steps_app. Qed.

Lemma prior_run_snoc o tr ev :
  PriorRequest.run enc o (tr ++ [ev])
    = PriorRequest.step enc (PriorRequest.resolve_options o)
        (PriorRequest.run enc o tr) ev.
Proof. by rewrite prior_run_app. Qed.

Lemma prior_step_settled o st ev :
  PriorRequest.promise st ≠ PriorRequest.Pending →
  PriorRequest.promise (PriorRequest.step enc o st ev) = PriorRequest.promise st.
Proof. intros Hp. destruct ev; prior_cases. Qed.

Lemma prior_step_allocated o st ev :
  is_Some (PriorRequest.store st !! timings_loc) →
  is_Some (PriorRequest.store (PriorRequest.step enc o st ev) !! timings_loc).
Proof.
  intros Hs. destruct ev; prior_cases; rewrite ?lookup_alter_is_Some; done.
Qed.

Lemma prior_run_allocated o tr :
  timing (PriorRequest.base o) = true →
  is_Some (PriorRequest.store (PriorRequest.run enc o tr) !! timings_loc).
Proof.
  intros Ht. induction tr as [|ev tr IH] using rev_ind.
  - unfold PriorRequest.run, PriorRequest.request. simpl. rewrite Ht.
    by rewrite lookup_singleton_eq.
  - rewrite prior_run_snoc. by apply prior_step_allocated.
Qed.

(** A fulfilled promise means that the response has ended. *)
Lemma prior_step_fulfilled_ended o st ev :
  (∀ r, PriorRequest.promise st = PriorRequest.Fulfilled r →
        PriorRequest.hasRequestEnded st = true) →
  ∀ r, PriorRequest.promise (PriorRequest.step enc o st ev)
         = PriorRequest.Fulfilled r →
       PriorRequest.hasRequestEnded (PriorRequest.step enc o st ev) = true.
Proof.
  intros Hinv r. destruct ev; prior_cases; intros; simplify_eq; eauto;
    congruence.
Qed.

(** Nothing aborts the request but the ["timeout"] listener and the drop
    timer. *)
Lemma prior_step_aborted o st ev :
  ev ≠ PriorRequest.EvTimeout → ev ≠ PriorRequest.EvDropTimer →
  PriorRequest.aborted (PriorRequest.step enc o st ev) = PriorRequest.aborted st.
Proof. intros Ht Hd. destruct ev; prior_cases. Qed.

(** The drop timer stays pending until it expires. *)
Lemma prior_step_dropTimer o st ev :
  ev ≠ PriorRequest.EvDropTimer →
  PriorRequest.dropTimer (PriorRequest.step enc o st ev) = PriorRequest.dropTimer st.
Proof. intros Hd. destruct ev; prior_cases. Qed.

(** [hasRequestEnded] is set by the end of the response only. *)
Lemma prior_step_not_ended o st ev :
  PriorRequest.is_end_event ev = false →
  PriorRequest.hasRequestEnded (PriorRequest.step enc o st ev)
    = PriorRequest.hasRequestEnded st.
Proof. intros He. destruct ev; prior_cases. Qed.

(** A socket listener is never registered without the listener that
    removes it when the request fails. *)
Lemma prior_step_cleanup_registered o st ev :
  (PriorRequest.lookupListener st = true ∨ PriorRequest.connectListener st = true →
   PriorRequest.cleanupListener st = true) →
  PriorRequest.lookupListener (PriorRequest.step enc o st ev) = true ∨
  PriorRequest.connectListener (PriorRequest.step enc o st ev) = true →
  PriorRequest.cleanupListener (PriorRequest.step enc o st ev) = true.
Proof.
  intros Hinv. destruct ev; prior_cases; intros [?|?]; simplify_eq; try done;
    apply Hinv; eauto.
Qed.

Lemma prior_step_no_socket_listeners o st ev :
  PriorRequest.socketListener st = false ∧
  PriorRequest.lookupListener st = false ∧
  PriorRequest.connectListener st = false →
  PriorRequest.socketListener (PriorRequest.step enc o st ev) = false ∧
  PriorRequest.lookupListener (PriorRequest.step enc o st ev) = false ∧
  PriorRequest.connectListener (PriorRequest.step enc o st ev) = false.
Proof. intros (Hs & Hl & Hc). destruct ev; prior_cases. Qed.

Lemma prior_step_socket_consumed o st ev :
  PriorRequest.socketListener st = false →
  PriorRequest.socketListener (PriorRequest.step enc o st ev) = false.
Proof. intros Hs. destruct ev; prior_cases. Qed.

End PriorBasics.

(** The earlier revision resolves [path] like the later one, except that it
    leaves the [?] out when the stringified query is empty. *)
Theorem prior_path_omits_empty_query `{NodeApi} (o : PriorRequest.Options) :
  let resolved :=
    path (cr_options (PriorRequest.requestObject (PriorRequest.request o))) in
  let b := PriorRequest.base o in
  (∀ p, path b = Some p → resolved = Some p) ∧
  (pathname b = None → resolved = path b) ∧
  (∀ pn, pathname b = Some pn → path b = None → query b = None →
     resolved = Some pn) ∧
  (∀ pn q, pathname b = Some pn → path b = None → query b = Some q →
     querystring_stringify q = "" → resolved = Some pn) ∧
  (∀ pn q, pathname b = Some pn → path b = None → query b = Some q →
     querystring_stringify q ≠ "" →
     resolved = Some (pn +:+ "?" +:+ querystring_stringify q)).
Proof.
  assert (Hnil : ∀ s : string, s +:+ "" = s)
    by (induction s as [|c s IH]; [done|];
        change (String c (s +:+ "") = String c s); by rewrite IH).
  simpl. unfold Prior.resolve_path.
  destruct o as [[pr ho pa pn qu ti bo to rt] d]. simpl. split_and!.
  - intros p ->. by destruct pn.
  - by intros ->.
  - by intros pn' -> -> ->.
  - intros pn' q -> -> -> Hq. rewrite decide_True by done. by rewrite Hq, Hnil.
  - intros pn' q -> -> -> Hq. by rewrite decide_False by done.
Qed.

(** [pathname: "/foo"] with the empty query [{}]. *)
Lemma prior_path_omits_empty_query_witness :
  path (cr_options (PriorRequest.requestObject
          (@PriorRequest.request reference_api
             (PriorRequest.mkOptions
                (mkOptions None None None (Some "/foo") (Some []) false None
                   None None)
                None))))
  = Some "/foo".
Proof.
  exact (proj1 (proj2 (proj2 (proj2
    (@prior_path_omits_empty_query reference_api
       (PriorRequest.mkOptions
          (mkOptions None None None (Some "/foo") (Some []) false None None None)
          None)))))
    "/foo" [] eq_refl eq_refl eq_refl eq_refl).
Defined.

(** Once the promise is fulfilled, [hasRequestEnded] is set: the drop timer
    that expires afterwards neither aborts the request nor touches the
    promise. *)
Theorem prior_drop_timer_after_success `{NodeApi} (enc : Text → Buffer)
    (o : PriorRequest.Options) (tr : list PriorRequest.Event)
    (r : PriorRequest.Response.t) :
  PriorRequest.promise (PriorRequest.run enc o tr) = PriorRequest.Fulfilled r →
  PriorRequest.hasRequestEnded (PriorRequest.run enc o tr) = true ∧
  PriorRequest.aborted (PriorRequest.run enc o (tr ++ [PriorRequest.EvDropTimer]))
    = PriorRequest.aborted (PriorRequest.run enc o tr) ∧
  PriorRequest.promise (PriorRequest.run enc o (tr ++ [PriorRequest.EvDropTimer]))
    = PriorRequest.Fulfilled r.
Proof.
  assert (Hinv : ∀ r, PriorRequest.promise (PriorRequest.run enc o tr)
                        = PriorRequest.Fulfilled r →
                      PriorRequest.hasRequestEnded (PriorRequest.run enc o tr) = true).
  { induction tr as [|ev tr IH] using rev_ind; [done|].
    rewrite prior_run_snoc. by apply prior_step_fulfilled_ended. }
  intros Hr. pose proof (Hinv r Hr) as Hended. split; [done|].
  rewrite prior_run_snoc. simpl.
  destruct (PriorRequest.dropTimer (PriorRequest.run enc o tr)); [|done].
  unfold PriorRequest.on_drop_timer. simpl. by rewrite Hended.
Qed.

Lemma prior_drop_timer_after_success_witness :
  PriorRequest.aborted
    (@PriorRequest.run reference_api utf8_encode
       (PriorRequest.mkOptions
          (mkOptions None None None None None false None None None) (Some 50))
       ([PriorRequest.EvResponse None (Some 200) (ms 10); PriorRequest.EvEnd (ms 20)]
          ++ [PriorRequest.EvDropTimer]))
  = 0%nat.
Proof.
  rewrite (proj1 (proj2 (@prior_drop_timer_after_success reference_api utf8_encode
             (PriorRequest.mkOptions
                (mkOptions None None None None None false None None None) (Some 50))
             [PriorRequest.EvResponse None (Some 200) (ms 10);
              PriorRequest.EvEnd (ms 20)]
             _ eq_refl))).
  reflexivity.
Defined.

(** With a truthy [dropRequestAfter], when the timer expires before the
    response has ended and while the promise is pending, the request is
    aborted once and the promise is rejected with [request timeout]. *)
Theorem prior_drop_timer_fires `{NodeApi} (enc : Text → Buffer)
    (o : PriorRequest.Options) (tr : list PriorRequest.Event) (d : Z) :
  PriorRequest.dropRequestAfter o = Some d → d ≠ 0 →
  Forall (λ ev, ev ≠ PriorRequest.EvDropTimer ∧
                PriorRequest.is_end_event ev = false) tr →
  PriorRequest.promise (PriorRequest.run enc o tr) = PriorRequest.Pending →
  PriorRequest.aborted (PriorRequest.run enc o (tr ++ [PriorRequest.EvDropTimer]))
    = S (PriorRequest.aborted (PriorRequest.run enc o tr)) ∧
  ∃ e,
    PriorRequest.promise (PriorRequest.run enc o (tr ++ [PriorRequest.EvDropTimer]))
      = PriorRequest.Rejected e ∧
    message e = "request timeout".
Proof.
  intros Hd Hnz Htr Hp.
  assert (Hinv : PriorRequest.dropTimer (PriorRequest.run enc o tr) = true ∧
                 PriorRequest.hasRequestEnded (PriorRequest.run enc o tr) = false).
  { clear Hp. induction tr as [|ev tr IH] using rev_ind.
    - unfold PriorRequest.run, PriorRequest.request, PriorRequest.drop_timer_armed.
      simpl. rewrite Hd. by destruct (Z.eqb_spec d 0).
    - rewrite Forall_app, Forall_singleton in Htr. destruct Htr as [Htr [Hev Hend]].
      rewrite prior_run_snoc, prior_step_dropTimer, prior_step_not_ended by done.
      by apply IH. }
  destruct Hinv as [Harmed Hended].
  rewrite prior_run_snoc. simpl. rewrite Harmed.
  unfold PriorRequest.on_drop_timer, PriorRequest.reject,
    PriorRequest.originalReject. simpl. rewrite Hended, Hp.
  destruct (timing (PriorRequest.base o)) eqn:Ht; simpl.
  - destruct (prior_run_allocated enc o tr Ht) as [t Hst]. rewrite Hst. simpl.
    split; [done|by eexists].
  - split; [done|by eexists].
Qed.

Lemma prior_drop_timer_fires_witness :
  ∃ e,
    PriorRequest.promise
      (@PriorRequest.run reference_api utf8_encode
         (PriorRequest.mkOptions
            (mkOptions None None None None None false None None None) (Some 50))
         ([PriorRequest.EvResponse None (Some 200) (ms 10)]
            ++ [PriorRequest.EvDropTimer]))
      = PriorRequest.Rejected e ∧
    message e = "request timeout".
Proof.
  apply (@prior_drop_timer_fires reference_api utf8_encode
           (PriorRequest.mkOptions
              (mkOptions None None None None None false None None None) (Some 50))
           [PriorRequest.EvResponse None (Some 200) (ms 10)] 50 eq_refl).
  - discriminate.
  - repeat constructor; discriminate.
  - reflexivity.
Defined.

(** Without [dropRequestAfter], or with [0], no timer is set. *)
Theorem prior_drop_timer_not_armed `{NodeApi} (enc : Text → Buffer)
    (o : PriorRequest.Options) (tr : list PriorRequest.Event) :
  PriorRequest.dropRequestAfter o = None ∨
  PriorRequest.dropRequestAfter o = Some 0 →
  PriorRequest.dropTimer (PriorRequest.run enc o tr) = false ∧
  PriorRequest.run enc o (tr ++ [PriorRequest.EvDropTimer])
    = PriorRequest.run enc o tr.
Proof.
  intros Hd.
  assert (Hoff : PriorRequest.dropTimer (PriorRequest.run enc o tr) = false).
  { induction tr as [|ev tr IH] using rev_ind.
    - unfold PriorRequest.run, PriorRequest.request, PriorRequest.drop_timer_armed.
      simpl. by destruct Hd as [-> | ->].
    - rewrite prior_run_snoc. generalize dependent (PriorRequest.run enc o tr).
      intros st Hst. destruct ev; prior_cases. }
  split; [done|]. rewrite prior_run_snoc. simpl. by rewrite Hoff.
Qed.

Lemma prior_drop_timer_not_armed_witness :
  PriorRequest.dropTimer
    (@PriorRequest.run reference_api utf8_encode
       (PriorRequest.mkOptions
          (mkOptions None None None None None false None None None) (Some 0))
       [PriorRequest.EvResponse None (Some 200) (ms 10)])
  = false.
Proof.
  exact (proj1 (@prior_drop_timer_not_armed reference_api utf8_encode
           (PriorRequest.mkOptions
              (mkOptions None None None None None false None None None) (Some 0))
           [PriorRequest.EvResponse None (Some 200) (ms 10)]
           (or_intror eq_refl))).
Defined.

(** The request is aborted by the ["timeout"] listener and by the drop
    timer, and by nothing else. *)
Theorem prior_abort_only_on_timeouts `{NodeApi} (enc : Text → Buffer)
    (o : PriorRequest.Options) (tr : list PriorRequest.Event) :
  Forall (λ ev, ev ≠ PriorRequest.EvTimeout ∧ ev ≠ PriorRequest.EvDropTimer) tr →
  PriorRequest.aborted (PriorRequest.run enc o tr) = 0%nat.
Proof.
  intros Htr. induction tr as [|ev tr IH] using rev_ind; [done|].
  rewrite Forall_app, Forall_singleton in Htr. destruct Htr as [Htr [Ht Hd]].
  rewrite prior_run_snoc, prior_step_aborted by done. by apply IH.
Qed.

Lemma prior_abort_only_on_timeouts_witness :
  PriorRequest.aborted
    (@PriorRequest.run reference_api utf8_encode
       (PriorRequest.mkOptions
          (mkOptions None None None None None false None None None) (Some 50))
       [PriorRequest.EvError "socket hang up"])
  = 0%nat.
Proof.
  apply (@prior_abort_only_on_timeouts reference_api utf8_encode).
  repeat constructor; discriminate.
Defined.

(** After an error of the request that follows the assignment of the
    socket, the ["lookup"] and ["connect"] listeners are gone: these events
    of the socket no longer change anything, whatever else happened in
    between. *)
Theorem prior_error_removes_socket_listeners `{NodeApi} (enc : Text → Buffer)
    (o : PriorRequest.Options) (pre mid post : list PriorRequest.Event)
    (connecting : bool) (now n : hrtime) (msg : string) :
  let tr := pre ++ PriorRequest.EvSocket connecting now
                :: mid ++ PriorRequest.EvError msg :: post in
  PriorRequest.run enc o (tr ++ [PriorRequest.EvLookup n])
    = PriorRequest.run enc o tr ∧
  PriorRequest.run enc o (tr ++ [PriorRequest.EvConnect n])
    = PriorRequest.run enc o tr.
Proof.
  intros tr.
  assert (Hreg : ∀ tr,
            PriorRequest.lookupListener (PriorRequest.run enc o tr) = true ∨
            PriorRequest.connectListener (PriorRequest.run enc o tr) = true →
            PriorRequest.cleanupListener (PriorRequest.run enc o tr) = true).
  { clear. intros tr. induction tr as [|ev tr IH] using rev_ind.
    - by intros [? | ?].
    - rewrite prior_run_snoc. by apply prior_step_cleanup_registered. }
  assert (Hgone : PriorRequest.socketListener (PriorRequest.run enc o tr) = false ∧
                  PriorRequest.lookupListener (PriorRequest.run enc o tr) = false ∧
                  PriorRequest.connectListener (PriorRequest.run enc o tr) = false).
  { subst tr.
    replace (pre ++ PriorRequest.EvSocket connecting now
               :: mid ++ PriorRequest.EvError msg :: post)
      with (((pre ++ PriorRequest.EvSocket connecting now :: mid)
               ++ [PriorRequest.EvError msg]) ++ post)
      by (by rewrite <- !app_assoc).
    rewrite prior_run_app.
    assert (Hsock : PriorRequest.socketListener
                      (PriorRequest.run enc o
                         (pre ++ PriorRequest.EvSocket connecting now :: mid)) = false).
    { rewrite prior_run_app, prior_steps_cons.
      generalize (PriorRequest.run enc o pre). intros st.
      assert (Hone : PriorRequest.socketListener
                       (PriorRequest.step enc (PriorRequest.resolve_options o) st
                          (PriorRequest.EvSocket connecting now)) = false)
        by prior_cases.
      revert Hone.
      generalize (PriorRequest.step enc (PriorRequest.resolve_options o) st
                    (PriorRequest.EvSocket connecting now)).
      induction mid as [|ev mid IH]; intros st' Hst'; [done|].
      rewrite prior_steps_cons. apply IH. by apply prior_step_socket_consumed. }
    specialize (Hreg (pre ++ PriorRequest.EvSocket connecting now :: mid)).
    assert (Hafter : PriorRequest.socketListener
                       (PriorRequest.run enc o
                          ((pre ++ PriorRequest.EvSocket connecting now :: mid)
                             ++ [PriorRequest.EvError msg])) = false ∧
                     PriorRequest.lookupListener
                       (PriorRequest.run enc o
                          ((pre ++ PriorRequest.EvSocket connecting now :: mid)
                             ++ [PriorRequest.EvError msg])) = false ∧
                     PriorRequest.connectListener
                       (PriorRequest.run enc o
                          ((pre ++ PriorRequest.EvSocket connecting now :: mid)
                             ++ [PriorRequest.EvError msg])) = false).
    { rewrite prior_run_snoc.
      revert Hsock Hreg.
      generalize (PriorRequest.run enc o
                    (pre ++ PriorRequest.EvSocket connecting now :: mid)).
      intros st Hsock Hreg.
      destruct (PriorRequest.lookupListener st) eqn:Hl,
               (PriorRequest.connectListener st) eqn:Hc;
        try (assert (PriorRequest.cleanupListener st = true) by (apply Hreg; eauto));
        prior_cases; try congruence; split_and!; congruence. }
    revert Hafter.
    generalize (PriorRequest.run enc o
                  ((pre ++ PriorRequest.EvSocket connecting now :: mid)
                     ++ [PriorRequest.EvError msg])).
    induction post as [|ev post IH]; intros st Hst; [done|].
    rewrite prior_steps_cons. apply IH. by apply prior_step_no_socket_listeners. }
  destruct Hgone as (_ & Hl & Hc).
  rewrite !prior_run_snoc. simpl. by rewrite Hl, Hc.
Qed.

Section PriorBody.
Context `{NodeApi} (enc : Text → Buffer).
Implicit Types (o : PriorRequest.Options) (st : PriorRequest.State).
Implicit Types (ev : PriorRequest.Event) (tr : list PriorRequest.Event).

Lemma prior_step_response_listener o st ev :
  PriorRequest.is_response_event ev = false →
  PriorRequest.responseListener (PriorRequest.step enc o st ev)
    = PriorRequest.responseListener st.
Proof. intros Hev. destruct ev; prior_cases. Qed.

(** Once the response callback has run, only the chunks of the response
    change its closure, until the response ends. *)
Lemma prior_step_closure o st ev c :
  PriorRequest.response st = Some c →
  PriorRequest.responseListener st = false →
  PriorRequest.c_piped c = false →
  PriorRequest.is_end_event ev = false →
  PriorRequest.responseListener (PriorRequest.step enc o st ev) = false ∧
  PriorRequest.response (PriorRequest.step enc o st ev)
    = Some (match ev with
            | PriorRequest.EvData chunk =>
                PriorRequest.mkClosure (PriorRequest.c_headers c)
                  (PriorRequest.c_statusCode c) false
                  (PriorRequest.c_unzip_input c) (PriorRequest.c_unzip_open c)
                  (PriorRequest.c_chunks c ++ [PriorRequest.to_buffer enc chunk])
            | _ => c
            end).
Proof.
  intros Hc Hl Hp Hev. destruct c as [ch cs cp ci co cc]. simpl in Hp. subst cp.
  destruct ev; prior_cases.
Qed.

Lemma prior_steps_closure o st evs c :
  PriorRequest.response st = Some c →
  PriorRequest.responseListener st = false →
  PriorRequest.c_piped c = false →
  Forall (λ ev, PriorRequest.is_end_event ev = false) evs →
  PriorRequest.response (PriorRequest.steps enc o st evs)
    = Some (PriorRequest.mkClosure (PriorRequest.c_headers c)
              (PriorRequest.c_statusCode c) false
              (PriorRequest.c_unzip_input c) (PriorRequest.c_unzip_open c)
              (PriorRequest.c_chunks c
                 ++ map (PriorRequest.to_buffer enc) (PriorRequest.data_of evs))).
Proof.
  intros Hc Hl Hp Hevs. revert st c Hc Hl Hp.
  induction Hevs as [|ev evs Hev _ IH]; intros st c Hc Hl Hp.
  - simpl. rewrite app_nil_r. destruct c; simpl in *; by subst.
  - rewrite prior_steps_cons.
    destruct (prior_step_closure o st ev c Hc Hl Hp Hev) as [Hl' Hc'].
    rewrite (IH _ _ Hc' Hl') by (by destruct ev).
    destruct ev; simpl; try done. by rewrite <- app_assoc.
Qed.

End PriorBody.

(** When the response of the earlier revision is read as it is and ends
    while the promise is pending, the promise is fulfilled with the UTF-8
    decoding of the concatenation of all chunks in order of arrival, a chunk
    that is a string counting as its UTF-8 encoding; the status code and the
    headers are those of the response. *)
Theorem prior_body_of_chunks `{NodeApi} (enc : Text → Buffer)
    (o : PriorRequest.Options) (pre evs : list PriorRequest.Event)
    (headers : option Headers) (statusCode : option Z) (now now' : hrtime) :
  let before :=
    PriorRequest.run enc o
      (pre ++ PriorRequest.EvResponse headers statusCode now :: evs) in
  let after :=
    PriorRequest.run enc o
      (pre ++ PriorRequest.EvResponse headers statusCode now
           :: evs ++ [PriorRequest.EvEnd now']) in
  Forall (λ ev, PriorRequest.is_response_event ev = false) pre →
  is_compressed (content_encoding headers) = false →
  Forall (λ ev, PriorRequest.is_end_event ev = false) evs →
  PriorRequest.promise before = PriorRequest.Pending →
  ∃ r,
    PriorRequest.promise after = PriorRequest.Fulfilled r ∧
    PriorRequest.Response.body r
      = Buffer_toString_utf8
          (concat (map (PriorRequest.to_buffer enc) (PriorRequest.data_of evs))) ∧
    PriorRequest.Response.statusCode r = number_or statusCode 0 ∧
    PriorRequest.Response.headers r = headers.
Proof.
  intros before after Hpre Hraw Hevs Hp. subst after.
  replace (pre ++ PriorRequest.EvResponse headers statusCode now
               :: evs ++ [PriorRequest.EvEnd now'])
    with ((pre ++ PriorRequest.EvResponse headers statusCode now :: evs)
            ++ [PriorRequest.EvEnd now'])
    by (by rewrite <- app_assoc).
  rewrite prior_run_snoc. fold before.
  assert (Hlisten : PriorRequest.responseListener (PriorRequest.run enc o pre) = true).
  { clear -Hpre. induction pre as [|ev pre IH] using rev_ind; [done|].
    rewrite Forall_app, Forall_singleton in Hpre. destruct Hpre as [Hpre Hev].
    rewrite prior_run_snoc, prior_step_response_listener by done. by apply IH. }
  assert (Hclosure : PriorRequest.response before
                     = Some (PriorRequest.mkClosure headers statusCode false [] true
                               (map (PriorRequest.to_buffer enc)
                                  (PriorRequest.data_of evs)))).
  { unfold before. rewrite prior_run_app, prior_steps_cons.
    rewrite (prior_steps_closure enc _ _ evs
               (PriorRequest.mkClosure headers statusCode false [] true []));
      [done| | |done..].
    - simpl. rewrite Hlisten. unfold PriorRequest.on_response. simpl.
      by rewrite Hraw.
    - simpl. rewrite Hlisten. unfold PriorRequest.on_response,
        PriorRequest.write_timings. simpl.
      by destruct (timing (PriorRequest.base o)). }
  simpl. rewrite Hclosure. simpl.
  unfold PriorRequest.on_end, PriorRequest.resolve, PriorRequest.write_timings.
  rewrite Hclosure. simpl.
  destruct (timing (PriorRequest.base o)) eqn:Ht; simpl.
  - destruct (prior_run_allocated enc o
                (pre ++ PriorRequest.EvResponse headers statusCode now :: evs) Ht)
      as [t Hst]. fold before in Hst.
    rewrite lookup_alter_eq, Hst. simpl. rewrite Hp. by eexists.
  - rewrite Hp. by eexists.
Qed.

(** The chunks of the test "should record timings for timeout" and of the
    test on UTF-8 boundaries: a string and the two halves of a character. *)
Lemma prior_body_of_chunks_witness :
  ∃ r,
    PriorRequest.promise
      (@PriorRequest.run reference_api utf8_encode
         (PriorRequest.mkOptions
            (mkOptions None None None None None false None None None) None)
         ([] ++ PriorRequest.EvResponse None (Some 200) (ms 0)
             :: [PriorRequest.EvData (PriorRequest.StringChunk [0x68%N; 0x69%N]);
                 PriorRequest.EvData (PriorRequest.BufferChunk [xd1]);
                 PriorRequest.EvData (PriorRequest.BufferChunk [x8f])]
             ++ [PriorRequest.EvEnd (ms 1)]))
      = PriorRequest.Fulfilled r ∧
    PriorRequest.Response.body r = [0x68%N; 0x69%N; 0x44f%N].
Proof.
  destruct (@prior_body_of_chunks reference_api utf8_encode
              (PriorRequest.mkOptions
                 (mkOptions None None None None None false None None None) None)
              []
              [PriorRequest.EvData (PriorRequest.StringChunk [0x68%N; 0x69%N]);
               PriorRequest.EvData (PriorRequest.BufferChunk [xd1]);
               PriorRequest.EvData (PriorRequest.BufferChunk [x8f])]
              None (Some 200) (ms 0) (ms 1)
              (List.Forall_nil _) eq_refl ltac:(repeat constructor) eq_refl)
    as (r & Hr & Hbody & _).
  exists r. split; [exact Hr|]. rewrite Hbody. reflexivity.
Defined.

(** The ["timeout"] listener of the earlier revision is permanent and has
    no guard: every ["timeout"] event of the request aborts it, also after
    the promise has settled, and rejects the promise with [socket timeout]
    when it is still pending. *)
Theorem prior_timeout_always_aborts `{NodeApi} (enc : Text → Buffer)
    (o : PriorRequest.Options) (tr : list PriorRequest.Event) :
  PriorRequest.aborted (PriorRequest.run enc o (tr ++ [PriorRequest.EvTimeout]))
    = S (PriorRequest.aborted (PriorRequest.run enc o tr)) ∧
  (PriorRequest.promise (PriorRequest.run enc o tr) = PriorRequest.Pending →
   ∃ e,
     PriorRequest.promise (PriorRequest.run enc o (tr ++ [PriorRequest.EvTimeout]))
       = PriorRequest.Rejected e ∧
     message e = "socket timeout").
Proof.
  rewrite prior_run_snoc. simpl.
  unfold PriorRequest.on_timeout, PriorRequest.reject, PriorRequest.originalReject.
  simpl.
  destruct (timing (PriorRequest.base o)) eqn:Ht; simpl.
  - destruct (prior_run_allocated enc o tr Ht) as [t Hst]. rewrite Hst. simpl.
    split.
    + by destruct (PriorRequest.promise (PriorRequest.run enc o tr)).
    + intros ->. by eexists.
  - split.
    + by destruct (PriorRequest.promise (PriorRequest.run enc o tr)).
    + intros ->. by eexists.
Qed.

(** A fulfilled request that times out afterwards is still aborted. *)
Lemma prior_timeout_always_aborts_witness :
  PriorRequest.aborted
    (@PriorRequest.run reference_api utf8_encode
       (PriorRequest.mkOptions
          (mkOptions None None None None None false None None None) None)
       ([PriorRequest.EvResponse None (Some 200) (ms 10); PriorRequest.EvEnd (ms 20)]
          ++ [PriorRequest.EvTimeout]))
  = 1%nat.
Proof.
  rewrite (proj1 (@prior_timeout_always_aborts reference_api utf8_encode
             (PriorRequest.mkOptions
                (mkOptions None None None None None false None None None) None)
             [PriorRequest.EvResponse None (Some 200) (ms 10);
              PriorRequest.EvEnd (ms 20)])).
  reflexivity.
Defined.
